(** * The chat engine of src/chat.ts: [AppOnFirebase] and [RoomImpl]

    A shallow embedding of the two classes of [src/chat.ts].  The engine is
    single threaded: every method runs to completion on the JavaScript task
    queue, so a method is a function on the whole [World] (the engine's
    objects together with what the engine has asked of its collaborators).
    A method can throw, and what it mutated before throwing stays mutated:
    methods live in a state-and-exception monad [JS].

    Objects are shared by reference in the source.  Rooms are kept in a heap
    and named by their allocation index; a message object is named by its
    position in its room's [messages] array, which only ever grows. *)

From stdpp Require Import base option list strings gmap.
From Stdlib Require Import ZArith.

Open Scope string_scope.
Open Scope list_scope.
Open Scope nat_scope.

(** ** Data of the source *)

(** The two dictionaries of a room, [hasMessage] and [nicknameOf], are plain
    objects: a key they do not hold themselves is still found when
    [Object.prototype] has it.  These are the property names of
    [Object.prototype]; what it holds under each of them is truthy. *)
Definition prototype_keys : list string :=
  ["constructor"; "__defineGetter__"; "__defineSetter__"; "hasOwnProperty";
   "__lookupGetter__"; "__lookupSetter__"; "isPrototypeOf";
   "propertyIsEnumerable"; "toString"; "valueOf"; "__proto__";
   "toLocaleString"].

Definition inherited (k : string) : bool :=
  existsb (String.eqb k) prototype_keys.

(** What the [from] field of a message object can hold at run time: a
    string (the author id as delivered, or a nickname), or what
    [this.nicknameOf[from]] yields for a name of [Object.prototype]: the
    inherited function, or [Object.prototype] itself under [__proto__]. *)
Inductive From :=
| Text (s : string)
| Inherited (key : string).

Coercion Text : string >-> From.

(** The value used as a property key or handed on as an account id: a
    string is itself; an inherited value is the text it converts to. *)
Definition key_of (f : From) : string :=
  match f with
  | Text s => s
  | Inherited k =>
      if String.eqb k "__proto__" then "[object Object]"
      else "function "
           +:+ (if String.eqb k "constructor" then "Object" else k)
           +:+ "() { [native code] }"
  end.

Module Message.
(** [interface Message]. *)
Record t := mk { from : From; when : Z; message : string }.
Definition set_from (f : From) (m : t) : t := mk f (when m) (message m).
End Message.

Module RoomData.
(** [interface RoomData]. *)
Record t := mk { private : bool; name : string }.
End RoomData.

Module MemberData.
(** [interface MemberData]; a role is one of the strings of type [Role],
    the store may hold any string. *)
Record t := mk { nickname : string; role : string }.
End MemberData.

Module User.
(** The part of [firebase.User] the engine reads. *)
Record t := mk { uid : string; displayName : option string }.
End User.

(** A database reference is the sequence of [child] keys below the root. *)
Abbreviation Ref := (list string) (only parsing).

(** A room object is named by its index in the heap. *)
Abbreviation ref := nat (only parsing).

Module Room.
(** The fields of [class RoomImpl].  [hasMessage] and [nicknameOf] are the
    two objects used as dictionaries; [messageQuery] is absent until
    [listenForMessages] ran. *)
Record t := mk {
  name : string;
  rid : string;
  role : string;
  nickname : string;
  messages : list Message.t;
  hasMessage : gmap string bool;
  nicknameOf : gmap string string;
  messageQuery : option Ref }.

Definition set_membership (ro ni : string) (r : t) : t :=
  mk (name r) (rid r) ro ni (messages r) (hasMessage r) (nicknameOf r)
     (messageQuery r).
Definition set_messages (ms : list Message.t) (r : t) : t :=
  mk (name r) (rid r) (role r) (nickname r) ms (hasMessage r) (nicknameOf r)
     (messageQuery r).
Definition set_hasMessage (h : gmap string bool) (r : t) : t :=
  mk (name r) (rid r) (role r) (nickname r) (messages r) h (nicknameOf r)
     (messageQuery r).
Definition set_nicknameOf (n : gmap string string) (r : t) : t :=
  mk (name r) (rid r) (role r) (nickname r) (messages r) (hasMessage r) n
     (messageQuery r).
Definition set_messageQuery (q : option Ref) (r : t) : t :=
  mk (name r) (rid r) (role r) (nickname r) (messages r) (hasMessage r)
     (nicknameOf r) q.
End Room.

Module AppState.
(** [interface AppState]; [rooms] holds room objects, [currentRoom] is a
    room object or [null]. *)
Record t := mk {
  nickname : string;
  rooms : list ref;
  currentRoom : option ref;
  latestError : string }.

Definition set_nickname (n : string) (s : t) : t :=
  mk n (rooms s) (currentRoom s) (latestError s).
Definition set_rooms (rs : list ref) (s : t) : t :=
  mk (nickname s) rs (currentRoom s) (latestError s).
Definition set_currentRoom (c : option ref) (s : t) : t :=
  mk (nickname s) (rooms s) c (latestError s).
Definition set_latestError (e : string) (s : t) : t :=
  mk (nickname s) (rooms s) (currentRoom s) e.
End AppState.

(** ** The collaborators, as far as the engine talks to them *)

(** A value written to the store.  A pushed message carries the server's
    timestamp placeholder, so only its other two fields are recorded. *)
Inductive Value :=
| VRoom (info : RoomData.t)
| VMember (m : MemberData.t)
| VMessage (from : option string) (message : string).

(** The calls the engine makes on references: [set] (with [None] for
    [set(null)]), [push] and [once('value')]. *)
Inductive Call :=
| CSet (r : Ref) (v : option Value)
| CPush (r : Ref) (v : Value)
| COnce (r : Ref).

(** What the source attaches to the call it makes: nothing at all, or the
    [then] / callback and [catch] of the named method. *)
Inductive Handler :=
| HNone
| HCreateRoomSet (key : string)
| HCreateRoomMember (key : string)
| HDeleteRoom (rid : string)
| HMembership (room : ref)
| HNickname (room : ref) (msg : nat).

Record Request := mkRequest { call : Call; handler : Handler; settled : bool }.

(** How the store answers a call: the acknowledgement of a write or the
    snapshot of a read, or a rejection with its message. *)
Inductive Outcome :=
| Fulfilled (snapshot : option MemberData.t)
| Rejected (message : string).

(** What can be thrown: [new Error(message)], the [TypeError] of a property
    read on [null], and the error of the store client's [child] on a key it
    does not accept. *)
Inductive Exn :=
| Error (message : string)
| TypeError
| InvalidPath (key : option string).

(** [error.message].  The texts of the two errors the source does not make
    itself are the host's and the store client's; they are abbreviated. *)
Definition exn_message (e : Exn) : string :=
  match e with
  | Error m => m
  | TypeError => "Cannot read property 'nickname' of null"
  | InvalidPath _ => "Reference.child failed: First argument was an invalid path"
  end.

(** The callback [updateListeners] hands to [Promise.resolve().then]. *)
Inductive Task := NotifyTask.

(** What the observer is called with: the copy of [state], and the room
    objects it reaches through it as they are at that moment. *)
Definition Snapshot : Type := AppState.t * list Room.t.

Record World := mkWorld {
  state : AppState.t;
  uid : option string;
  listener : option nat;
  pendingUpdate : bool;
  heap : list Room.t;
  requests : list Request;
  microtasks : list Task;
  observed : list (nat * Snapshot);
  unhandled : list Exn }.

Definition set_state (f : AppState.t → AppState.t) (w : World) : World :=
  mkWorld (f (state w)) (uid w) (listener w) (pendingUpdate w) (heap w)
          (requests w) (microtasks w) (observed w) (unhandled w).
Definition set_uid (u : option string) (w : World) : World :=
  mkWorld (state w) u (listener w) (pendingUpdate w) (heap w)
          (requests w) (microtasks w) (observed w) (unhandled w).
Definition set_listener (l : option nat) (w : World) : World :=
  mkWorld (state w) (uid w) l (pendingUpdate w) (heap w)
          (requests w) (microtasks w) (observed w) (unhandled w).
Definition set_pendingUpdate (b : bool) (w : World) : World :=
  mkWorld (state w) (uid w) (listener w) b (heap w)
          (requests w) (microtasks w) (observed w) (unhandled w).
Definition set_heap (f : list Room.t → list Room.t) (w : World) : World :=
  mkWorld (state w) (uid w) (listener w) (pendingUpdate w) (f (heap w))
          (requests w) (microtasks w) (observed w) (unhandled w).
Definition set_requests (f : list Request → list Request) (w : World) : World :=
  mkWorld (state w) (uid w) (listener w) (pendingUpdate w) (heap w)
          (f (requests w)) (microtasks w) (observed w) (unhandled w).
Definition set_microtasks (q : list Task) (w : World) : World :=
  mkWorld (state w) (uid w) (listener w) (pendingUpdate w) (heap w)
          (requests w) q (observed w) (unhandled w).
Definition set_observed (o : list (nat * Snapshot)) (w : World) : World :=
  mkWorld (state w) (uid w) (listener w) (pendingUpdate w) (heap w)
          (requests w) (microtasks w) o (unhandled w).
Definition set_unhandled (f : list Exn → list Exn) (w : World) : World :=
  mkWorld (state w) (uid w) (listener w) (pendingUpdate w) (heap w)
          (requests w) (microtasks w) (observed w) (f (unhandled w)).

(** ** Methods: state and exceptions *)

Inductive Completion (A : Type) :=
| Normal (a : A)
| Throw (e : Exn).
Arguments Normal {A} a.
Arguments Throw {A} e.

Definition JS (A : Type) : Type := World → Completion A * World.

Definition ret {A} (a : A) : JS A := λ w, (Normal a, w).
Definition throw {A} (e : Exn) : JS A := λ w, (Throw e, w).
Definition bind {A B} (k : A → JS B) (m : JS A) : JS B :=
  λ w, match m w with
       | (Normal a, w') => k a w'
       | (Throw e, w') => (Throw e, w')
       end.
Definition try_catch {A} (m : JS A) (h : Exn → JS A) : JS A :=
  λ w, match m w with
       | (Normal a, w') => (Normal a, w')
       | (Throw e, w') => h e w'
       end.
Definition get : JS World := λ w, (Normal w, w).
Definition modify (f : World → World) : JS unit := λ w, (Normal tt, f w).

(** [x ← m; k] and [m;; k] sequence two steps of a method. *)
#[global] Instance JS_ret : MRet JS := @ret.
#[global] Instance JS_bind : MBind JS := @bind.

(** The world a method leaves behind, whether it returned or threw. *)
Definition exec {A} (m : JS A) (w : World) : World := (m w).2.

(** JavaScript truthiness of a string, and of a string that may be
    [undefined]. *)
Definition truthy (s : string) : bool := negb (String.eqb s "").
Definition truthy_opt (s : option string) : bool := from_option truthy false s.

(** Dereferencing a room object.  Every room object the engine is given was
    made by [new RoomImpl], so the lookup succeeds; the other branch only
    makes the function total. *)
Definition readRoom (r : ref) : JS Room.t :=
  λ w, match heap w !! r with
       | Some room => (Normal room, w)
       | None => (Throw TypeError, w)
       end.

Definition modifyRoom (r : ref) (f : Room.t → Room.t) : JS unit :=
  modify (set_heap (alter f r)).

(** Making a call on a reference: it joins the calls awaiting the store's
    answer, with whatever the source attached to it. *)
Definition request (c : Call) (h : Handler) : JS unit :=
  modify (set_requests (λ rs, rs ++ [mkRequest c h false])).

(** ** The store client's [child]

    [Reference.child(key)] of the store client checks its argument before it
    builds the reference, and throws unless the key is a non-empty string
    without one of the characters [.], [#], [$], [[], []] and the control
    characters.  The engine reaches it with [undefined] when nobody is
    signed in ([getMemberRef] passes [this.uid] on). *)
Definition invalid_path_char (c : Ascii.ascii) : bool :=
  let n := Ascii.nat_of_ascii c in
  ((n <? 32) || (n =? 127) || (n =? 46) || (n =? 35) || (n =? 36)
   || (n =? 91) || (n =? 93))%nat.

Definition isValidPathString (k : option string) : bool :=
  match k with
  | None => false
  | Some s => truthy s && forallb (λ c, negb (invalid_path_char c))
                                  (String.list_ascii_of_string s)
  end.

Definition child (r : Ref) (k : option string) : JS Ref :=
  match k with
  | Some s => if isValidPathString k then ret (r ++ [s]) else throw (InvalidPath k)
  | None => throw (InvalidPath k)
  end.

#[global] Arguments isValidPathString : simpl never.
#[global] Arguments child : simpl never.

(** ** [class AppOnFirebase] *)

(** [getState]: a copy of [this.state]. *)
Definition getState (w : World) : AppState.t := state w.

(** [updateListeners]: nothing when an update is pending, otherwise the flag
    is raised and the notifying callback queued as a microtask. *)
Definition updateListeners : JS unit :=
  w ← get;
  if pendingUpdate w then ret tt
  else
    modify (set_pendingUpdate true);;
    modify (λ w, set_microtasks (microtasks w ++ [NotifyTask]) w).

(** The callback queued by [updateListeners]. *)
Definition run_task (t : Task) (w : World) : World :=
  match t with
  | NotifyTask =>
      let w := set_pendingUpdate false w in
      match listener w with
      | Some l => set_observed (observed w ++ [(l, (getState w, heap w))]) w
      | None => w
      end
  end.

(** [setNickname]. *)
Definition setNickname (name : string) : JS unit :=
  modify (set_state (AppState.set_nickname name));;
  updateListeners.

(** [displayError]. *)
Definition displayError (error : Exn) : JS unit :=
  modify (set_state (AppState.set_latestError (exn_message error)));;
  updateListeners.

(** [ensureSignedIn]: throws unless [this.uid] is truthy. *)
Definition ensureSignedIn (reason : string) : JS unit :=
  w ← get;
  if truthy_opt (uid w) then ret tt
  else throw (Error ("Must be siged in to " +:+ reason +:+ ".")).

(** [getMemberRef]: a falsy [uid] argument is replaced by [this.uid]. *)
Definition getMemberRef (rid : string) (u : option string) : JS Ref :=
  w ← get;
  let u := if truthy_opt u then u else uid w in
  r ← child ["members"] (Some rid);
  child r u.

(** [getMessagesRef]. *)
Definition getMessagesRef (rid : string) : JS Ref :=
  child ["messages"] (Some rid).

(** The loop of [findRoom] over [this.state.rooms]. *)
Fixpoint findRoom_in (h : list Room.t) (rid : string) (rs : list ref) : option ref :=
  match rs with
  | [] => None
  | r :: rs' =>
      match h !! r with
      | Some room => if String.eqb (Room.rid room) rid then Some r
                     else findRoom_in h rid rs'
      | None => findRoom_in h rid rs'
      end
  end.

Definition findRoom (rid : string) : JS (option ref) :=
  w ← get;
  ret (findRoom_in (heap w) rid (AppState.rooms (state w))).

(** [listen] and the function it returns. *)
Definition listen (l : nat) : JS unit :=
  modify (set_listener (Some l));;
  updateListeners.

Definition unlisten : JS unit := modify (set_listener None).

(** ** [class RoomImpl] *)

(** [setUnknownMembership]. *)
Definition setUnknownMembership (r : ref) : JS unit :=
  modifyRoom r (Room.set_membership "" "unknown").

(** [new RoomImpl(app, rid, info)]: the object is allocated with its field
    initialisers and the constructor's assignments; its subscription to
    [userListenable] is [roomUserListener] below. *)
Definition newRoom (rid : string) (info : RoomData.t) : JS ref :=
  w ← get;
  modify (set_heap (λ h, h ++ [Room.mk (RoomData.name info) rid "" "unknown"
                                       [] ∅ ∅ None]));;
  ret (length (heap w)).

(** [ensureMember]. *)
Definition ensureMember (r : ref) : JS unit :=
  room ← readRoom r;
  if String.eqb (Room.role room) "" then
    w ← get;
    let member := MemberData.mk (AppState.nickname (state w)) "member" in
    m ← getMemberRef (Room.rid room) None;
    request (CSet m (Some (VMember member))) HNone
  else ret tt.

(** [sendMessage]. *)
Definition sendMessage (r : ref) (message : string) : JS unit :=
  ensureSignedIn "send a message";;
  room ← readRoom r;
  m ← getMessagesRef (Room.rid room);
  w ← get;
  request (CPush m (VMessage (uid w) message)) HNone.

(** [listenForMessages]: subscribes once; the deliveries of the
    subscription are the [MessageAdded] events below. *)
Definition listenForMessages (r : ref) : JS unit :=
  room ← readRoom r;
  match Room.messageQuery room with
  | Some _ => ret tt
  | None =>
      m ← getMessagesRef (Room.rid room);
      modifyRoom r (Room.set_messageQuery (Some m))
  end.

(** [addMessage]: the message object is pushed and its id marked; what is
    returned is that same object, here its position in [messages]. *)
Definition addMessage (r : ref) (mid : string) (message : Message.t) : JS nat :=
  room ← readRoom r;
  modifyRoom r (λ room, Room.set_hasMessage (<[mid := true]> (Room.hasMessage room))
                          (Room.set_messages (Room.messages room ++ [message]) room));;
  ret (length (Room.messages room)).

(** Reading a dictionary entry in a condition.  The gmap holds the
    object's own entries; a key it does not hold is looked up in
    [Object.prototype], and is [undefined] only when that has no such name
    either.  [has] is the truthiness of [this.hasMessage[k]]; [cached] is
    the value of [this.nicknameOf[k]] when it is truthy. *)
Definition has (h : gmap string bool) (k : string) : bool :=
  default (inherited k) (h !! k).
Definition cached (n : gmap string string) (k : string) : option From :=
  match n !! k with
  | Some nick => if truthy nick then Some (Text nick) else None
  | None => if inherited k then Some (Inherited k) else None
  end.

(** Assigning the [from] field of the message object at position [i]. *)
Definition setFrom (r : ref) (i : nat) (f : From) : JS unit :=
  modifyRoom r (λ room, Room.set_messages
                          (alter (Message.set_from f) i (Room.messages room)) room).

(** [ensureMessage]. *)
Definition ensureMessage (r : ref) (mid : string) (message : Message.t) : JS unit :=
  room ← readRoom r;
  if has (Room.hasMessage room) mid then ret tt
  else
    storedMessage ← addMessage r mid message;
    match cached (Room.nicknameOf room) (key_of (Message.from message)) with
    | Some nick =>
        setFrom r storedMessage nick;;
        updateListeners
    | None =>
        m ← getMemberRef (Room.rid room) (Some (key_of (Message.from message)));
        request (COnce m) (HNickname r storedMessage)
    end.

(** The callback [ensureMessage] passes to [once]: [member] is the
    snapshot's value, [null] when there is no record.  [message] and
    [storedMessage] are the same object, the one at position [i]. *)
Definition nicknameCallback (r : ref) (i : nat) (member : option MemberData.t) : JS unit :=
  room ← readRoom r;
  match Room.messages room !! i with
  | None => throw TypeError
  | Some message =>
      match member with
      | None => throw TypeError
      | Some member =>
          modifyRoom r (λ room, Room.set_nicknameOf
            (<[key_of (Message.from message) := MemberData.nickname member]>
               (Room.nicknameOf room))
            room);;
          setFrom r i (MemberData.nickname member);;
          setFrom r i (MemberData.nickname member);;
          updateListeners
      end
  end.

(** The callback the constructor passes to [once]. *)
Definition membershipCallback (r : ref) (member : option MemberData.t) : JS unit :=
  match member with
  | Some member =>
      modifyRoom r (Room.set_membership (MemberData.role member)
                                        (MemberData.nickname member))
  | None => setUnknownMembership r
  end;;
  updateListeners.

(** The listener the constructor registers on [userListenable]. *)
Definition roomUserListener (r : ref) (user : option User.t) : JS unit :=
  match user with
  | None =>
      setUnknownMembership r;;
      updateListeners
  | Some user =>
      room ← readRoom r;
      m ← getMemberRef (Room.rid room) (Some (User.uid user));
      request (COnce m) (HMembership r)
  end.

(** ** [AppOnFirebase], continued: the methods that use rooms *)

(** [selectRoom]. *)
Definition selectRoom (room : option ref) : JS unit :=
  w ← get;
  match room with
  | Some r =>
      if decide (AppState.currentRoom (state w) = Some r) then ret tt
      else
        modify (set_state (AppState.set_currentRoom (Some r)));;
        ensureMember r;;
        listenForMessages r;;
        updateListeners
  | None => ret tt
  end.

(** The ['child_added'] handler of [ref('rooms')]. *)
Definition rooms_child_added (rid : string) (info : RoomData.t) : JS unit :=
  room ← findRoom rid;
  match room with
  | None =>
      r ← newRoom rid info;
      modify (set_state (λ s, AppState.set_rooms (AppState.rooms s ++ [r]) s))
  | Some _ => ret tt
  end;;
  updateListeners.

(** The loop of the ['child_removed'] handler: the first index at which
    [rooms] holds the object, or nothing when the loop runs to its end. *)
Fixpoint indexOf (room : ref) (rs : list ref) (i : nat) : option nat :=
  match rs with
  | [] => None
  | r :: rs' => if decide (r = room) then Some i else indexOf room rs' (S i)
  end.

(** The ['child_removed'] handler of [ref('rooms')]: at the index found the
    loop splices the object out and returns from the handler; the call of
    [updateListeners] stands after the loop. *)
Definition rooms_child_removed (rid : string) : JS unit :=
  room ← findRoom rid;
  match room with
  | Some room =>
      w ← get;
      (if decide (AppState.currentRoom (state w) = Some room)
       then modify (set_state (AppState.set_currentRoom None))
       else ret tt);;
      w ← get;
      match indexOf room (AppState.rooms (state w)) 0 with
      | Some i =>
          modify (set_state (λ s, AppState.set_rooms (delete i (AppState.rooms s)) s))
      | None => updateListeners
      end
  | None => ret tt
  end.

(** [createRoom]; [key] is the key [push()] made up for the new room. *)
Definition createRoom (name key : string) : JS unit :=
  ensureSignedIn "create a room";;
  request (CSet ["rooms"; key] (Some (VRoom (RoomData.mk false name))))
          (HCreateRoomSet key).

(** The two [then] callbacks of [createRoom]. *)
Definition createRoom_setMember (key : string) : JS unit :=
  w ← get;
  let member := MemberData.mk (AppState.nickname (state w)) "owner" in
  m ← getMemberRef key None;
  request (CSet m (Some (VMember member))) (HCreateRoomMember key).

Definition createRoom_select (key : string) : JS unit :=
  room ← findRoom key;
  match room with
  | None => throw (Error ("Can't select room: " +:+ key))
  | Some r => selectRoom (Some r)
  end.

(** [deleteRoom] and its [then] callback. *)
Definition deleteRoom (r : ref) : JS unit :=
  room ← readRoom r;
  m ← getMessagesRef (Room.rid room);
  request (CSet m None) HNone;;
  rr ← child ["rooms"] (Some (Room.rid room));
  request (CSet rr None) (HDeleteRoom (Room.rid room)).

Definition deleteRoom_members (rid : string) : JS unit :=
  m ← child ["members"] (Some rid);
  request (CSet m None) HNone.

(** The listener the constructor registers on [userListenable]. *)
Definition appUserListener (user : option User.t) : JS unit :=
  match user with
  | None =>
      modify (set_uid None);;
      setNickname "anonymous"
  | Some user =>
      modify (set_uid (Some (User.uid user)));;
      match User.displayName user with
      | Some name => if truthy name then setNickname name else ret tt
      | None => ret tt
      end
  end.

(** ** The environment: what the store, the host and the UI do *)

Fixpoint forEach (f : ref → JS unit) (rs : list ref) : JS unit :=
  match rs with
  | [] => ret tt
  | r :: rs' => f r;; forEach f rs'
  end.

(** Modelled from the spec: [Variable] of [./variable], which is not among
    the sources.  An identity change is delivered to the listeners in the
    order they registered: the engine's own first, then the one of every
    room object made so far (a room never unregisters). *)
Definition userChanged (user : option User.t) : JS unit :=
  appUserListener user;;
  w ← get;
  forEach (λ r, roomUserListener r user) (seq 0 (length (heap w))).

(** What runs when the store answers a call, by what the source attached to
    the call.  A rejection nobody was attached for, and an exception leaving
    a callback, leave the engine: [toplevel] below records them. *)
Definition run_handler (h : Handler) (o : Outcome) : JS unit :=
  match h, o with
  | HNone, Fulfilled _ => ret tt
  | HNone, Rejected e => throw (Error e)
  | HCreateRoomSet key, Fulfilled _ =>
      try_catch (createRoom_setMember key) displayError
  | HCreateRoomMember key, Fulfilled _ =>
      try_catch (createRoom_select key) displayError
  | HDeleteRoom rid, Fulfilled _ =>
      try_catch (deleteRoom_members rid) displayError
  | HMembership r, Fulfilled member => membershipCallback r member
  | (HCreateRoomSet _ | HCreateRoomMember _ | HDeleteRoom _ | HMembership _),
    Rejected e => displayError (Error e)
  | HNickname r i, Fulfilled member => nicknameCallback r i member
  | HNickname r i, Rejected e => throw (Error e)
  end.

Definition settle (i : nat) (o : Outcome) : JS unit :=
  w ← get;
  match requests w !! i with
  | Some req =>
      if settled req then ret tt
      else
        modify (set_requests (<[i := mkRequest (call req) (handler req) true]>));;
        run_handler (handler req) o
  | None => ret tt
  end.

(** Running one entry point to its end; what it throws leaves the engine. *)
Definition toplevel (m : JS unit) (w : World) : World :=
  match m w with
  | (Normal _, w') => w'
  | (Throw e, w') => set_unhandled (λ es, es ++ [e]) w'
  end.

Definition run_microtask (w : World) : World :=
  match microtasks w with
  | t :: q => run_task t (set_microtasks q w)
  | [] => w
  end.

(** Everything that can happen to the engine.  [UserReplayed] delivers an
    identity to one room's listener alone (a listenable that replays its
    current value to a new listener does that on [new RoomImpl]); [Settled]
    is the store answering the [i]-th call; [Microtask] runs the oldest
    queued callback; the last six are the UI calling the public methods. *)
Inductive Event :=
| UserChanged (user : option User.t)
| UserReplayed (room : ref) (user : option User.t)
| RoomAdded (rid : string) (info : RoomData.t)
| RoomRemoved (rid : string)
| MessageAdded (room : ref) (mid : string) (message : Message.t)
| Settled (i : nat) (o : Outcome)
| Microtask
| WindowError (message : string)
| Listen (l : nat)
| Unlisten
| CreateRoom (name key : string)
| SelectRoom (room : option ref)
| DeleteRoom (room : ref)
| SetNickname (name : string)
| SendMessage (room : ref) (message : string).

(** A room object in an event is one the engine made. *)
Definition allocated (r : ref) (w : World) : bool :=
  bool_decide (r < length (heap w)).

Definition listening (r : ref) (w : World) : bool :=
  match heap w !! r with
  | Some room => bool_decide (is_Some (Room.messageQuery room))
  | None => false
  end.

Definition handle (ev : Event) (w : World) : World :=
  match ev with
  | UserChanged user => toplevel (userChanged user) w
  | UserReplayed r user =>
      if allocated r w then toplevel (roomUserListener r user) w else w
  | RoomAdded rid info => toplevel (rooms_child_added rid info) w
  | RoomRemoved rid => toplevel (rooms_child_removed rid) w
  | MessageAdded r mid message =>
      if listening r w then toplevel (ensureMessage r mid message) w else w
  | Settled i o => toplevel (settle i o) w
  | Microtask => run_microtask w
  | WindowError message => toplevel (displayError (Error message)) w
  | Listen l => toplevel (listen l) w
  | Unlisten => toplevel unlisten w
  | CreateRoom name key => toplevel (createRoom name key) w
  | SelectRoom None => toplevel (selectRoom None) w
  | SelectRoom (Some r) =>
      if allocated r w then toplevel (selectRoom (Some r)) w else w
  | DeleteRoom r => if allocated r w then toplevel (deleteRoom r) w else w
  | SetNickname name => toplevel (setNickname name) w
  | SendMessage r message =>
      if allocated r w then toplevel (sendMessage r message) w else w
  end.

(** The engine after its constructor. *)
Definition init : World :=
  mkWorld (AppState.mk "anonymous" [] None "") None None false [] [] [] [] [].

Definition run (evs : list Event) (w : World) : World :=
  foldl (λ w ev, handle ev w) w evs.

(** The worlds the engine can be in, when every event satisfies [P] at the
    moment it happens. *)
Inductive reachable_by (P : Event → World → Prop) : World → Prop :=
| reach_init : reachable_by P init
| reach_step w ev :
    reachable_by P w → P ev w → reachable_by P (handle ev w).

Definition reachable : World → Prop := reachable_by (λ _ _, True).

(** * The vocabulary of the properties *)

Definition carol : User.t := User.mk "u1" (Some "Carol").
Definition lobby : RoomData.t := RoomData.mk false "lobby".

(** A run in which Carol signs in, room [r1] arrives and is selected, and a
    message by [u2] is delivered. *)
Definition one_message : list Event :=
  [UserChanged (Some carol); RoomAdded "r1" lobby; SelectRoom (Some 0);
   MessageAdded 0 "m1" (Message.mk "u2" 1 "hi")].

(** The membership record [ensureMember] writes, and the call that writes
    it for the account [u]. *)
Definition member_record (w : World) : MemberData.t :=
  MemberData.mk (AppState.nickname (state w)) "member".

Definition membership_write (w : World) (room : Room.t) (u : string) : Request :=
  mkRequest (CSet ["members"; Room.rid room; u] (Some (VMember (member_record w))))
            HNone false.

(** The membership of a room is unknown when the room shows what
    [setUnknownMembership] sets. *)
Definition membership_unknown (room : Room.t) : Prop :=
  Room.role room = "" ∧ Room.nickname room = "unknown".

(** The claim that [ensureMember] writes only in the unknown state. *)
Definition writes_only_when_unknown (w : World) (r : ref) : Prop :=
  ∀ room, heap w !! r = Some room →
          requests (exec (ensureMember r) w) ≠ requests w →
          membership_unknown room.

(** Room [r1] arrives, Carol signs in, and the fetch of her membership
    record is answered with a record whose role is [''] . *)
Definition resolved_unset : list Event :=
  [RoomAdded "r1" lobby; UserChanged (Some carol);
   Settled 0 (Fulfilled (Some (MemberData.mk "Caz" "")))].

(** The calls [ensureMember] adds for the room object [room]. *)
Definition ensureMember_calls (w : World) (room : Room.t) : list Request :=
  if String.eqb (Room.role room) ""
     && isValidPathString (Some (Room.rid room))
     && isValidPathString (uid w)
  then [membership_write w room (default "" (uid w))] else [].

(** A synchronous change of what the observer can see, followed by the
    call of [updateListeners], as [setNickname], [displayError] and the
    callbacks of the rooms do it. *)
Definition Mutation : Type := (AppState.t → AppState.t) * (list Room.t → list Room.t).

Definition mutate_notify (m : Mutation) : JS unit :=
  modify (set_state m.1);;
  modify (set_heap m.2);;
  updateListeners.

(** One scheduling tick: the synchronous changes run one after the other,
    and only then the queued microtasks. *)
Definition synchronously (ms : list Mutation) (w : World) : World :=
  foldl (λ w m, exec (mutate_notify m) w) w ms.

Definition drain (w : World) : World :=
  Nat.iter (length (microtasks w)) run_microtask w.

(** The flag [pendingUpdate] says whether the notifying callback is
    queued. *)
Definition coalescer_ok (w : World) : Prop :=
  microtasks w = if pendingUpdate w then [NotifyTask] else [].

(** Whatever a method does, the flag and the queue stay in step: they are
    only touched by [updateListeners] and by the queued callback. *)
Definition coalesced (w w' : World) : Prop := coalescer_ok w → coalescer_ok w'.

(** The message log of a room object, and the ids marked in it. *)
Definition log (r : ref) (w : World) : list Message.t :=
  from_option Room.messages [] (heap w !! r).

Definition seen_in (room : Room.t) : gset string :=
  filter (λ k, has (Room.hasMessage room) k = true)
         (dom (Room.hasMessage room) ∪ list_to_set prototype_keys).

Definition seen (r : ref) (w : World) : gset string :=
  from_option seen_in ∅ (heap w !! r).

(** Deliveries to one room, one after the other. *)
Definition ingest (r : ref) (l : list (string * Message.t)) (w : World) : World :=
  foldl (λ w p, exec (ensureMessage r p.1 p.2) w) w l.

#[global] Instance RoomData_eq_dec : EqDecision RoomData.t.
Proof. solve_decision. Defined.
#[global] Instance MemberData_eq_dec : EqDecision MemberData.t.
Proof. solve_decision. Defined.
#[global] Instance Value_eq_dec : EqDecision Value.
Proof. solve_decision. Defined.
#[global] Instance Call_eq_dec : EqDecision Call.
Proof. solve_decision. Defined.

(** The fetches of reference [p] the store has not answered yet. *)
Definition is_pending_fetch (p : Ref) (q : Request) : bool :=
  bool_decide (call q = COnce p) && negb (settled q).

Definition pending_fetches (p : Ref) (w : World) : nat :=
  length (filter (λ q, is_pending_fetch p q = true) (requests w)).

(** The claim that resolutions of one author share a pending fetch: no
    membership path ever has two fetches in flight. *)
Definition fetch_shared (w : World) : Prop :=
  ∀ p, pending_fetches p w ≤ 1.

(** The run [one_message], and a second message by the same author before
    the store has answered. *)
Definition two_messages : list Event :=
  one_message ++ [MessageAdded 0 "m2" (Message.mk "u2" 2 "yo")].

(** The calls one [ensureMessage] adds on the room object [room]. *)
Definition ensureMessage_calls (w : World) (r : ref) (room : Room.t)
    (mid : string) (m : Message.t) : list Request :=
  if has (Room.hasMessage room) mid then []
  else match cached (Room.nicknameOf room) (key_of (Message.from m)) with
       | Some _ => []
       | None =>
           let u := if truthy (key_of (Message.from m))
                    then Some (key_of (Message.from m))
                    else uid w in
           if isValidPathString (Some (Room.rid room)) && isValidPathString u
           then [mkRequest (COnce ["members"; Room.rid room; default "" u])
                           (HNickname r (length (Room.messages room))) false]
           else []
       end.

Definition three_by_u2 : list (string * Message.t) :=
  [("m1", Message.mk "u2" 1 "hi"); ("m2", Message.mk "u2" 2 "yo");
   ("m3", Message.mk "u2" 3 "ok")].

(** Carol signs in, room [r1] arrives, she selects it (which makes the
    membership write, call 0), and the observer-less notification runs. *)
Definition carol_in_lobby : list Event :=
  [UserChanged (Some carol); RoomAdded "r1" lobby; SelectRoom (Some 0);
   Microtask].

(** What the observer would be told about after the world [w]: the error
    text, and whether a notification is queued. *)
Definition error_shown (w : World) : string * list Task :=
  (AppState.latestError (state w), microtasks w).

(** [preserves R m]: the world [m] leaves behind is related by [R] to the
    one it started in, whether [m] returned or threw. *)
Definition preserves (R : World → World → Prop) {A} (m : JS A) : Prop :=
  ∀ w, R w (exec m w).

(** [frame]: the registry and the selection are as they were. *)
Definition frame (w w' : World) : Prop :=
  AppState.rooms (state w') = AppState.rooms (state w)
  ∧ AppState.currentRoom (state w') = AppState.currentRoom (state w)
  ∧ Room.rid <$> heap w' = Room.rid <$> heap w.

(** [selecting]: the registry is as it was, and the selection is as it was
    or is now a room of the registry. *)
Definition selecting (w w' : World) : Prop :=
  AppState.rooms (state w') = AppState.rooms (state w)
  ∧ (AppState.currentRoom (state w') = AppState.currentRoom (state w)
     ∨ ∃ r, AppState.currentRoom (state w') = Some r
            ∧ r ∈ AppState.rooms (state w))
  ∧ Room.rid <$> heap w' = Room.rid <$> heap w.

(** [registry_kept]: the registry is as it was. *)
Definition registry_kept (w w' : World) : Prop :=
  AppState.rooms (state w') = AppState.rooms (state w)
  ∧ Room.rid <$> heap w' = Room.rid <$> heap w.

(** The two events that change the registry. *)
Definition registry_event (ev : Event) : bool :=
  match ev with
  | RoomAdded _ _ | RoomRemoved _ => true
  | _ => false
  end.

(** The UI selects rooms of the registry only. *)
Definition selects_registered (ev : Event) (w : World) : Prop :=
  match ev with
  | SelectRoom (Some r) => r ∈ AppState.rooms (state w)
  | _ => True
  end.

(** The remote id of a room object, and the ids of the rooms in the
    registry, in its order. *)
Definition rid_of (w : World) (r : ref) : string :=
  default "" ((Room.rid <$> heap w) !! r).

Definition room_ids (w : World) : list string :=
  rid_of w <$> AppState.rooms (state w).

(** The registry holds room objects that exist, no two with the same id. *)
Definition registry_ok (w : World) : Prop :=
  Forall (λ r, r < length (heap w)) (AppState.rooms (state w))
  ∧ NoDup (room_ids w).

(** The selected room, if any, is in the registry. *)
Definition selection_ok (w : World) : Prop :=
  ∀ r, AppState.currentRoom (state w) = Some r → r ∈ AppState.rooms (state w).

(** Room [r1] arrives and is removed again; the UI, which was not told of
    the removal, selects the room object it still shows. *)
Definition select_removed : list Event :=
  [UserChanged (Some carol); RoomAdded "r1" lobby; Microtask;
   RoomRemoved "r1"; SelectRoom (Some 0)].

(** The world [updateListeners] leaves. *)
Definition notified (w : World) : World :=
  if pendingUpdate w then w
  else set_microtasks (microtasks w ++ [NotifyTask]) (set_pendingUpdate true w).

(** The calls the source ends in [catch]: the two writes of [createRoom],
    the deletion of the room record, and the constructor's fetch. *)
Definition has_catch (h : Handler) : bool :=
  match h with
  | HNone | HNickname _ _ => false
  | HCreateRoomSet _ | HCreateRoomMember _ | HDeleteRoom _ | HMembership _ => true
  end.

(** The events that can change the selection: the UI selecting, the removal
    of a room, and the store answering (the last step of [createRoom]). *)
Definition selection_event (ev : Event) : bool :=
  match ev with
  | SelectRoom _ | RoomRemoved _ | Settled _ _ => true
  | _ => false
  end.

(** * Properties *)

(** Unfolding the sequencing of a method down to functions on worlds. *)
Ltac js_unfold :=
  unfold exec, mbind, mret, JS_bind, JS_ret, bind, ret, throw, get, modify,
    try_catch in *.

(** ** Sending a message without an identity *)

Lemma ensureSignedIn_signed_out (w : World) (reason : string) :
  uid w = None →
  ensureSignedIn reason w
  = (Throw (Error ("Must be siged in to " +:+ reason +:+ ".")), w).
Proof.
  intros Hu. unfold ensureSignedIn. js_unfold. by rewrite Hu.
Qed.

(** C7: with no signed-in identity, [sendMessage] throws to its caller the
    error of [ensureSignedIn], and leaves the world as it was: nothing is
    pushed to the store (no call is made at all). *)
Theorem sendMessage_signed_out (w : World) (r : ref) (message : string) :
  uid w = None →
  sendMessage r message w
  = (Throw (Error "Must be siged in to send a message."), w)
  ∧ requests (exec (sendMessage r message) w) = requests w.
Proof.
  intros Hu.
  assert (sendMessage r message w
          = (Throw (Error "Must be siged in to send a message."), w)) as E.
  { unfold sendMessage. js_unfold.
    by rewrite (ensureSignedIn_signed_out w "send a message" Hu). }
  split; [exact E|]. unfold exec. by rewrite E.
Qed.

Lemma sendMessage_signed_out_witness :
  uid init = None
  ∧ sendMessage 0 "hi" init
    = (Throw (Error "Must be siged in to send a message."), init).
Proof.
  split; [reflexivity|].
  apply (sendMessage_signed_out init 0 "hi"). reflexivity.
Defined.

(** ** The nickname callback on a missing record *)

(** C10: the callback [ensureMessage] gives to [once] reads
    [member.nickname] unguarded: on a snapshot without a record it throws a
    [TypeError] and changes nothing.  The run [one_message] gets there: the
    author [u2] is not cached, the fetch of [members/r1/u2] is made, and
    when the store answers it with no record the exception leaves the
    engine, the author shown stays the raw id, the cache stays empty and no
    error text is set. *)
Theorem nicknameCallback_missing_record :
  (∀ (w : World) (r : ref) (i : nat),
     nicknameCallback r i None w = (Throw TypeError, w))
  ∧ (let w := run one_message init in
     (call <$> requests w) !! 1 = Some (COnce ["members"; "r1"; "u2"])
     ∧ (handler <$> requests w) !! 1 = Some (HNickname 0 0)
     ∧ let w' := handle (Settled 1 (Fulfilled None)) w in
       unhandled w' = [TypeError]
       ∧ (Room.messages <$> heap w') = [[Message.mk "u2" 1 "hi"]]
       ∧ (Room.nicknameOf <$> heap w') = [∅]
       ∧ AppState.latestError (state w') = "").
Proof.
  split.
  - intros w r i. unfold nicknameCallback, readRoom. js_unfold.
    destruct (heap w !! r) as [room|]; [|done].
    by destruct (Room.messages room !! i).
  - vm_compute. done.
Qed.

(** ** Removal of a room *)

Lemma findRoom_in_elem (h : list Room.t) (rid : string) (rs : list ref) (room : ref) :
  findRoom_in h rid rs = Some room → room ∈ rs.
Proof.
  induction rs as [|r rs IH]; simpl; [done|].
  destruct (h !! r) as [x|].
  - destruct (String.eqb (Room.rid x) rid).
    + intros [= ->]. apply list_elem_of_here.
    + intros H. apply list_elem_of_further. auto.
  - intros H. apply list_elem_of_further. auto.
Qed.

Lemma findRoom_in_rid (h : list Room.t) (rid : string) (rs : list ref) (room : ref) :
  findRoom_in h rid rs = Some room →
  ∃ x, h !! room = Some x ∧ Room.rid x = rid.
Proof.
  induction rs as [|r rs IH]; simpl; [done|].
  destruct (h !! r) as [x|] eqn:Hr; [|done].
  destruct (String.eqb (Room.rid x) rid) eqn:E; [|done].
  intros [= <-]. exists x. split; [done|]. by apply String.eqb_eq.
Qed.

(** The loop finds the first position of an object that is in the array. *)
Lemma indexOf_elem (room : ref) (rs : list ref) (k : nat) :
  room ∈ rs →
  ∃ i, indexOf room rs k = Some (k + i) ∧ rs !! i = Some room
       ∧ ∀ j, j < i → rs !! j ≠ Some room.
Proof.
  revert k. induction rs as [|r rs IH]; intros k Hin.
  - by apply elem_of_nil in Hin.
  - simpl. destruct (decide (r = room)) as [->|Hne].
    + exists 0. rewrite Nat.add_0_r. split; [done|]. split; [done|].
      intros j Hj. lia.
    + apply elem_of_cons in Hin as [->|Hin]; [done|].
      destruct (IH (S k) Hin) as (i & Hi & Hl & Hmin).
      exists (S i). rewrite Nat.add_succ_r. split; [done|]. split; [done|].
      intros [|j] Hj; simpl; [congruence|]. apply Hmin. lia.
Qed.

(** C9: when the ['child_removed'] handler finds a room with the removed
    id, it takes that object out of [rooms] at its first position, clears
    [currentRoom] when it was that object, and returns from inside the loop:
    the flag [pendingUpdate], the microtask queue and the observer's record
    are what they were, so no notification is scheduled. *)
Theorem rooms_child_removed_no_notification
    (w : World) (rid : string) (room : ref) :
  findRoom_in (heap w) rid (AppState.rooms (state w)) = Some room →
  let w' := exec (rooms_child_removed rid) w in
  (∃ i, AppState.rooms (state w) !! i = Some room
        ∧ (∀ j, j < i → AppState.rooms (state w) !! j ≠ Some room)
        ∧ AppState.rooms (state w') = delete i (AppState.rooms (state w)))
  ∧ AppState.currentRoom (state w')
    = (if decide (AppState.currentRoom (state w) = Some room) then None
       else AppState.currentRoom (state w))
  ∧ pendingUpdate w' = pendingUpdate w
  ∧ microtasks w' = microtasks w
  ∧ observed w' = observed w.
Proof.
  intros Hfind.
  destruct (indexOf_elem room _ 0 (findRoom_in_elem _ _ _ _ Hfind))
    as (i & Hi & Hl & Hmin).
  simpl in Hi.
  unfold rooms_child_removed, findRoom. js_unfold. simpl. rewrite Hfind.
  destruct (decide (AppState.currentRoom (state w) = Some room)) as [Hc|Hc];
    simpl; rewrite Hi; simpl; (split; [exists i; done|done]).
Qed.

Lemma rooms_child_removed_no_notification_witness :
  let w := run carol_in_lobby init in
  let w' := exec (rooms_child_removed "r1") w in
  findRoom_in (heap w) "r1" (AppState.rooms (state w)) = Some 0
  ∧ AppState.currentRoom (state w') = None
  ∧ pendingUpdate w' = pendingUpdate w
  ∧ microtasks w' = microtasks w.
Proof.
  pose proof (rooms_child_removed_no_notification
    (run carol_in_lobby init) "r1" 0 eq_refl) as (_ & Hc & Hp & Hm & _).
  split; [reflexivity|]. split; [exact Hc|]. split; [exact Hp | exact Hm].
Defined.

(** ** The membership write of [ensureMember] *)

Lemma isValidPathString_present (k : option string) :
  isValidPathString k = true → ∃ u, k = Some u ∧ u ≠ "".
Proof.
  destruct k as [u|]; [|done]. unfold isValidPathString. intros H.
  exists u. split; [done|]. intros ->. done.
Qed.

Lemma child_valid (r : Ref) (k : string) (w : World) :
  isValidPathString (Some k) = true → child r (Some k) w = (Normal (r ++ [k]), w).
Proof. intros H. unfold child. by rewrite H. Qed.

Lemma child_invalid (r : Ref) (k : option string) (w : World) :
  isValidPathString k = false → child r k w = (Throw (InvalidPath k), w).
Proof. intros H. unfold child. destruct k; [by rewrite H|done]. Qed.

Lemma ensureMember_exec (w : World) (r : ref) (room : Room.t) :
  heap w !! r = Some room →
  exec (ensureMember r) w
  = set_requests (λ rs, rs ++ ensureMember_calls w room) w.
Proof.
  intros Hr.
  assert (w = set_requests (λ rs, rs ++ []) w) as Hnil.
  { destruct w. unfold set_requests. simpl. by rewrite app_nil_r. }
  unfold ensureMember_calls, ensureMember, readRoom, getMemberRef. js_unfold.
  rewrite Hr.
  destruct (String.eqb (Room.role room) "") eqn:Erole; simpl; [|done].
  destruct (isValidPathString (Some (Room.rid room))) eqn:Erid; simpl.
  - rewrite (child_valid _ _ _ Erid).
    destruct (isValidPathString (uid w)) eqn:Eu.
    + destruct (uid w) as [u|] eqn:Huid; [|done].
      rewrite (child_valid _ _ _ Eu). simpl. unfold request. js_unfold. simpl.
      unfold membership_write, member_record. done.
    + by rewrite (child_invalid _ _ _ Eu).
  - by rewrite (child_invalid _ _ _ Erid).
Qed.

Lemma ensureMember_signed_out (w : World) (r : ref) (room : Room.t) :
  heap w !! r = Some room →
  Room.role room = "" →
  isValidPathString (Some (Room.rid room)) = true →
  uid w = None →
  ensureMember r w = (Throw (InvalidPath None), w).
Proof.
  intros Hr Hrole Hrid Hu.
  unfold ensureMember, readRoom, getMemberRef. js_unfold.
  rewrite Hr, Hrole. simpl. rewrite (child_valid _ _ _ Hrid), Hu.
  by rewrite child_invalid.
Qed.

(** C8 as claimed fails: after the run [resolved_unset] the room shows the
    fetched record, nickname [Caz] with role [''], and [ensureMember]
    writes a membership all the same. *)
Lemma ensureMember_writes_when_resolved :
  let w := run resolved_unset init in
  (Room.role <$> heap w) = [""]
  ∧ (Room.nickname <$> heap w) = ["Caz"]
  ∧ (call <$> requests (exec (ensureMember 0) w)) !! 1
    = Some (CSet ["members"; "r1"; "u1"]
                 (Some (VMember (MemberData.mk "Carol" "member"))))
  ∧ ¬ writes_only_when_unknown w 0.
Proof.
  split; [reflexivity|]. split; [reflexivity|]. split; [reflexivity|].
  intros H.
  destruct (H (Room.mk "lobby" "r1" "" "Caz" [] ∅ ∅ None) eq_refl) as [_ Hn].
  - vm_compute. discriminate.
  - discriminate Hn.
Qed.

(** C8, as the source has it: the test is on the role alone.
    [ensureMember] leaves the heap (so the room's [role] and
    [nickname]) and [state] untouched.  It makes a call exactly when the
    room's role is [''] and the reference [members/<rid>/<uid>] can be built
    from the signed-in account's id; the call is then the one [set] of the
    record with role [member] and the account's current nickname.  So a
    write means the role was [''] and an identity was present: without one
    the store client's [child] throws before anything is written, and
    [ensureMember] ends in that exception. *)
Theorem ensureMember_write (w : World) (r : ref) (room : Room.t) :
  heap w !! r = Some room →
  let w' := exec (ensureMember r) w in
  heap w' = heap w
  ∧ state w' = state w
  ∧ requests w'
    = requests w
      ++ (if String.eqb (Room.role room) ""
             && isValidPathString (Some (Room.rid room))
             && isValidPathString (uid w)
          then [membership_write w room (default "" (uid w))] else [])
  ∧ (requests w' ≠ requests w →
     Room.role room = "" ∧ ∃ u, uid w = Some u ∧ u ≠ "")
  ∧ (Room.role room = "" → isValidPathString (Some (Room.rid room)) = true →
     uid w = None → ensureMember r w = (Throw (InvalidPath None), w)).
Proof.
  intros Hr. simpl. rewrite (ensureMember_exec w r room Hr). simpl.
  split; [done|]. split; [done|]. split; [done|].
  split; [|by apply ensureMember_signed_out].
  unfold ensureMember_calls.
  destruct (String.eqb (Room.role room) "") eqn:Erole; simpl;
    [|by rewrite app_nil_r].
  destruct (isValidPathString (Some (Room.rid room))); simpl;
    [|by rewrite app_nil_r].
  destruct (isValidPathString (uid w)) eqn:Eu; [|by rewrite app_nil_r].
  intros _. split; [by apply String.eqb_eq|].
  by apply isValidPathString_present.
Qed.

Lemma ensureMember_write_witness :
  let w := run [UserChanged (Some carol); RoomAdded "r1" lobby] init in
  requests (exec (ensureMember 0) w)
  = [mkRequest (CSet ["members"; "r1"; "u1"]
                     (Some (VMember (MemberData.mk "Carol" "member"))))
               HNone false]
  ∧ heap (exec (ensureMember 0) w) = heap w.
Proof.
  pose proof (ensureMember_write
    (run [UserChanged (Some carol); RoomAdded "r1" lobby] init) 0
    (Room.mk "lobby" "r1" "" "unknown" [] ∅ ∅ None) eq_refl)
    as (Hh & _ & Hq & _).
  split; [exact Hq | exact Hh].
Defined.

(** ** Ingestion of messages *)

(** Building a reference reads the world and leaves it alone. *)
Lemma child_pure (r : Ref) (k : option string) (w : World) :
  ∃ c, child r k w = (c, w).
Proof.
  unfold child. destruct k as [s|]; [|by eexists].
  destruct (isValidPathString (Some s)); by eexists.
Qed.

Lemma getMemberRef_pure (rid : string) (u : option string) (w : World) :
  ∃ c, getMemberRef rid u w = (c, w).
Proof.
  unfold getMemberRef. js_unfold.
  destruct (child_pure ["members"] (Some rid) w) as [[a|e] ->]; [|by eexists].
  apply child_pure.
Qed.

Lemma inherited_elem (k : string) :
  inherited k = true ↔ k ∈ prototype_keys.
Proof.
  unfold inherited. rewrite existsb_exists. split.
  - intros (x & Hx & ->%String.eqb_eq). by apply list_elem_of_In.
  - intros Hk. exists k. split; [by apply list_elem_of_In|].
    apply String.eqb_refl.
Qed.

Lemma seen_in_has (room : Room.t) (mid : string) :
  mid ∈ seen_in room ↔ has (Room.hasMessage room) mid = true.
Proof.
  unfold seen_in. rewrite elem_of_filter. split; [by intros [? _]|].
  intros Hhas. split; [done|]. apply elem_of_union. unfold has in Hhas.
  destruct (Room.hasMessage room !! mid) as [b|] eqn:Hb; simpl in Hhas.
  - left. apply elem_of_dom. eauto.
  - right. apply elem_of_list_to_set. by apply inherited_elem.
Qed.

Lemma alter_lookup_Some {A} (f : A → A) (i : nat) (l : list A) (x : A) :
  l !! i = Some x → alter f i l !! i = Some (f x).
Proof. intros H. by rewrite list_lookup_alter_eq, H. Qed.

(** What [ensureMessage] does to the room object it is called on. *)
Lemma ensureMessage_room (w : World) (r : ref) (room : Room.t)
    (mid : string) (m : Message.t) :
  heap w !! r = Some room →
  ∃ room', heap (exec (ensureMessage r mid m) w) !! r = Some room'
    ∧ Room.rid room' = Room.rid room
    ∧ Room.nicknameOf room' = Room.nicknameOf room
    ∧ has (Room.hasMessage room') mid = true
    ∧ (if has (Room.hasMessage room) mid
       then room' = room
       else Room.hasMessage room' = <[mid := true]> (Room.hasMessage room)
            ∧ length (Room.messages room') = S (length (Room.messages room))).
Proof.
  intros Hr.
  unfold ensureMessage, addMessage, setFrom, modifyRoom, readRoom. js_unfold.
  rewrite Hr. destruct (has (Room.hasMessage room) mid) eqn:Hhas; simpl.
  { exists room. by rewrite Hhas. }
  rewrite Hr. simpl.
  assert (has (<[mid:=true]> (Room.hasMessage room)) mid = true) as Hnow.
  { unfold has. by rewrite lookup_insert_eq. }
  destruct (cached (Room.nicknameOf room) (key_of (Message.from m)))
    as [nick|]; simpl.
  - unfold updateListeners. js_unfold. simpl.
    destruct (pendingUpdate w); simpl.
    all: eexists; split; [do 2 apply alter_lookup_Some; exact Hr|].
    all: simpl; rewrite length_alter, length_app; simpl.
    all: repeat (split; [done|]); lia.
  - match goal with |- context [getMemberRef ?a ?b ?c] =>
      destruct (getMemberRef_pure a b c) as [[p|e] ->] end; simpl.
    all: eexists; split; [apply alter_lookup_Some; exact Hr|].
    all: simpl; rewrite length_app; simpl.
    all: repeat (split; [done|]); lia.
Qed.

Lemma ensureMessage_seen (w : World) (r : ref) (room : Room.t)
    (mid : string) (m : Message.t) :
  heap w !! r = Some room →
  ensureMessage r mid m w = (Normal tt, w) ∨ has (Room.hasMessage room) mid = false.
Proof.
  intros Hr. unfold ensureMessage, readRoom. js_unfold. rewrite Hr.
  destruct (has (Room.hasMessage room) mid); auto.
Qed.

Lemma size_new_ids (mid : string) (X S : gset string) :
  size (({[mid]} ∪ X) ∖ S)
  = (if decide (mid ∈ S) then 0 else 1) + size (X ∖ (S ∪ {[mid]})).
Proof.
  destruct (decide (mid ∈ S)) as [Hin|Hin]; simpl.
  - f_equal. set_solver.
  - replace (({[mid]} ∪ X) ∖ S) with ({[mid]} ∪ X ∖ (S ∪ {[mid]})).
    + rewrite size_union by set_solver. by rewrite size_singleton.
    + apply set_eq. intros x. destruct (decide (x = mid)); set_solver.
Qed.

Lemma ingest_log (r : ref) (l : list (string * Message.t)) (w : World) :
  is_Some (heap w !! r) →
  length (log r (ingest r l w))
  = length (log r w) + size ((list_to_set l.*1 : gset string) ∖ seen r w).
Proof.
  unfold ingest. revert w. induction l as [|[mid m] l IH]; intros w [room Hr].
  - simpl.
    replace ((∅ : gset string) ∖ seen r w) with (∅ : gset string) by set_solver.
    rewrite size_empty. lia.
  - cbn [foldl]. rewrite fmap_cons, list_to_set_cons. cbn [fst snd].
    destruct (ensureMessage_room w r room mid m Hr)
      as (room' & Hr' & _ & _ & Hnow & Hcase).
    rewrite IH by eauto.
    rewrite size_new_ids. unfold log, seen. rewrite Hr', Hr. simpl.
    assert (seen_in room' = seen_in room ∪ {[mid]}) as ->.
    { apply set_eq. intros x. rewrite elem_of_union, elem_of_singleton.
      rewrite !seen_in_has.
      destruct (has (Room.hasMessage room) mid) eqn:Hhas.
      - subst room'. split; [auto|]. intros [?| ->]; done.
      - destruct Hcase as [-> _]. unfold has.
        destruct (decide (x = mid)) as [->|Hne].
        + rewrite lookup_insert_eq. simpl. tauto.
        + rewrite lookup_insert_ne by done. tauto. }
    destruct (decide (mid ∈ seen_in room)) as [Hin|Hin].
    + apply seen_in_has in Hin. rewrite Hin in Hcase. subst room'. lia.
    + rewrite seen_in_has in Hin. apply not_true_is_false in Hin.
      rewrite Hin in Hcase. destruct Hcase as [_ ->]. lia.
Qed.

(** C5: what holds of ingestion, and where it fails.  Delivering an id to
    a room a second time, with whatever payload, changes nothing at all; and
    after any sequence of deliveries the log has grown by one message for
    each distinct id that did not read as seen before, however often the id
    occurs in the sequence.  But [hasMessage] is a plain object, so an id
    that is a name of [Object.prototype] reads as seen although it was
    never delivered: its first delivery is dropped, and the log holds no
    message for it, not one. *)
Theorem ensureMessage_idempotent
    (w : World) (r : ref) (mid : string) (m m' : Message.t)
    (l : list (string * Message.t)) :
  allocated r w = true →
  exec (ensureMessage r mid m') (exec (ensureMessage r mid m) w)
  = exec (ensureMessage r mid m) w
  ∧ length (log r (ingest r l w))
    = length (log r w) + size ((list_to_set l.*1 : gset string) ∖ seen r w)
  ∧ (∀ room, heap w !! r = Some room →
       Room.hasMessage room !! mid = None → inherited mid = true →
       mid ∈ seen r w ∧ exec (ensureMessage r mid m) w = w).
Proof.
  intros Ha. unfold allocated in Ha. apply bool_decide_eq_true in Ha.
  apply lookup_lt_is_Some in Ha. split; [|split; [by apply ingest_log|]].
  - destruct Ha as [room Hr].
    destruct (ensureMessage_room w r room mid m Hr)
      as (room' & Hr' & _ & _ & Hnow & _).
    destruct (ensureMessage_seen _ r room' mid m' Hr') as [E|E].
    + unfold exec at 1. by rewrite E.
    + congruence.
  - intros room Hr Hown Hinh.
    assert (has (Room.hasMessage room) mid = true) as Hhas.
    { unfold has. by rewrite Hown. }
    split.
    + unfold seen. rewrite Hr. simpl. by apply seen_in_has.
    + destruct (ensureMessage_seen w r room mid m Hr) as [E|E]; [|congruence].
      unfold exec. by rewrite E.
Qed.

Lemma ensureMessage_idempotent_witness :
  let w := run [UserChanged (Some carol); RoomAdded "r1" lobby] init in
  let hi := Message.mk "u2" 1 "hi" in
  let yo := Message.mk "u3" 2 "yo" in
  length (log 0 (ingest 0 [("m1", hi); ("m2", yo); ("m1", hi); ("m1", yo)] w))
  = 2
  ∧ log 0 (ingest 0 [("constructor", hi)] w) = [].
Proof.
  intros w hi yo. subst w hi yo. split.
  - destruct (ensureMessage_idempotent
      (run [UserChanged (Some carol); RoomAdded "r1" lobby] init) 0 "m1"
      (Message.mk "u2" 1 "hi") (Message.mk "u2" 1 "hi")
      [("m1", Message.mk "u2" 1 "hi"); ("m2", Message.mk "u3" 2 "yo");
       ("m1", Message.mk "u2" 1 "hi"); ("m1", Message.mk "u3" 2 "yo")]
      eq_refl) as (_ & H & _).
    rewrite H. vm_compute. reflexivity.
  - destruct (ensureMessage_idempotent
      (run [UserChanged (Some carol); RoomAdded "r1" lobby] init) 0
      "constructor" (Message.mk "u2" 1 "hi") (Message.mk "u2" 1 "hi") []
      eq_refl) as (_ & _ & H).
    destruct (H (Room.mk "lobby" "r1" "" "unknown" [] ∅ ∅ None)
                eq_refl eq_refl eq_refl) as [_ E].
    unfold ingest. cbn [foldl fst snd]. rewrite E. reflexivity.
Defined.

(** ** Fetches of nicknames *)

(** C2 as claimed fails: after the run [two_messages] two fetches of
    [members/r1/u2] are pending at once. *)
Lemma nickname_fetch_not_shared :
  pending_fetches ["members"; "r1"; "u2"] (run two_messages init) = 2
  ∧ ¬ fetch_shared (run two_messages init).
Proof.
  assert (pending_fetches ["members"; "r1"; "u2"] (run two_messages init) = 2)
    as E by (vm_compute; reflexivity).
  split; [exact E|]. intros H. specialize (H ["members"; "r1"; "u2"]).
  rewrite E in H. lia.
Qed.

Lemma getMemberRef_result (rid : string) (u : option string) (w : World) :
  let u' := if truthy_opt u then u else uid w in
  getMemberRef rid u w
  = (if isValidPathString (Some rid)
     then if isValidPathString u'
          then Normal ["members"; rid; default "" u']
          else Throw (InvalidPath u')
     else Throw (InvalidPath (Some rid)), w).
Proof.
  simpl. unfold getMemberRef. js_unfold. simpl.
  destruct (isValidPathString (Some rid)) eqn:Erid.
  - rewrite (child_valid _ _ _ Erid).
    generalize (if truthy_opt u then u else uid w). intros k.
    destruct (isValidPathString k) eqn:Eu.
    + destruct k as [s|]; [|done]. by rewrite (child_valid _ _ _ Eu).
    + by rewrite (child_invalid _ _ _ Eu).
  - by rewrite (child_invalid _ _ _ Erid).
Qed.

Lemma ensureMessage_requests (w : World) (r : ref) (room : Room.t)
    (mid : string) (m : Message.t) :
  heap w !! r = Some room →
  requests (exec (ensureMessage r mid m) w)
  = requests w ++ ensureMessage_calls w r room mid m.
Proof.
  intros Hr.
  unfold ensureMessage_calls, ensureMessage, addMessage, setFrom, modifyRoom,
    readRoom.
  js_unfold. rewrite Hr.
  destruct (has (Room.hasMessage room) mid); simpl; [by rewrite app_nil_r|].
  rewrite Hr. simpl.
  destruct (cached (Room.nicknameOf room) (key_of (Message.from m)))
    as [nick|]; simpl.
  - unfold updateListeners. js_unfold. simpl.
    destruct (pendingUpdate w); simpl; by rewrite app_nil_r.
  - rewrite getMemberRef_result. simpl.
    destruct (isValidPathString (Some (Room.rid room))); simpl;
      [|by rewrite app_nil_r].
    destruct (isValidPathString _); simpl; [done|by rewrite app_nil_r].
Qed.

Lemma pending_fetches_app (p : Ref) (w w' : World) (qs : list Request) :
  requests w' = requests w ++ qs →
  pending_fetches p w'
  = pending_fetches p w + length (filter (λ q, is_pending_fetch p q = true) qs).
Proof.
  intros E. unfold pending_fetches. by rewrite E, filter_app, length_app.
Qed.

(** A delivery of a new id by the author [a], who is not cached, adds one
    pending fetch of [a]'s membership record. *)
Lemma ensureMessage_fetches_one (w : World) (r : ref) (room : Room.t)
    (mid a : string) (m : Message.t) :
  heap w !! r = Some room →
  has (Room.hasMessage room) mid = false →
  Message.from m = a →
  cached (Room.nicknameOf room) a = None →
  isValidPathString (Some (Room.rid room)) = true →
  isValidPathString (Some a) = true →
  pending_fetches ["members"; Room.rid room; a] (exec (ensureMessage r mid m) w)
  = S (pending_fetches ["members"; Room.rid room; a] w).
Proof.
  intros Hr Hhas Hfrom Hc Hrid Ha.
  rewrite (pending_fetches_app _ w _ _ (ensureMessage_requests w r room mid m Hr)).
  unfold ensureMessage_calls. rewrite Hhas, Hfrom. cbn [key_of].
  rewrite Hc, Hrid.
  destruct (isValidPathString_present _ Ha) as (a' & [= <-] & Hne).
  assert (truthy a = true) as ->.
  { unfold truthy. apply negb_true_iff. by apply String.eqb_neq. }
  rewrite Ha. simpl.
  rewrite filter_cons_True.
  - simpl. lia.
  - unfold is_pending_fetch. simpl. by rewrite bool_decide_eq_true_2.
Qed.

(** A delivery by an author with a cached nickname makes no call. *)
Lemma ensureMessage_cached_no_call (w : World) (r : ref) (room : Room.t)
    (mid : string) (m : Message.t) :
  heap w !! r = Some room →
  is_Some (cached (Room.nicknameOf room) (key_of (Message.from m))) →
  requests (exec (ensureMessage r mid m) w) = requests w.
Proof.
  intros Hr [nick Hc]. rewrite (ensureMessage_requests w r room mid m Hr).
  unfold ensureMessage_calls. rewrite Hc.
  destruct (has (Room.hasMessage room) mid); by rewrite app_nil_r.
Qed.

(** C2, as the source has it: nothing is shared between resolutions.  Let
    the author id [a] be a key the store client accepts and not a name of
    [Object.prototype], and let the deliveries in [l] carry distinct ids
    that do not read as seen in the room, all by the author [a].  While [a]
    has no cached nickname, every one of them issues a fetch of
    [members/<rid>/<a>] of its own, so [N] deliveries before any answer
    leave [N] more fetches pending; once [a] has a (non-empty) cached
    nickname they issue no call at all. *)
Theorem nickname_fetch_per_message (w : World) (r : ref) (room : Room.t)
    (a : string) (l : list (string * Message.t)) :
  heap w !! r = Some room →
  isValidPathString (Some (Room.rid room)) = true →
  isValidPathString (Some a) = true →
  inherited a = false →
  NoDup l.*1 →
  (∀ p, p ∈ l → has (Room.hasMessage room) p.1 = false ∧ Message.from p.2 = a) →
  (cached (Room.nicknameOf room) a = None →
   pending_fetches ["members"; Room.rid room; a] (ingest r l w)
   = pending_fetches ["members"; Room.rid room; a] w + length l)
  ∧ (is_Some (cached (Room.nicknameOf room) a) →
     requests (ingest r l w) = requests w).
Proof.
  intros Hr Hrid Ha _. unfold ingest.
  revert w room Hr Hrid.
  induction l as [|[mid m] l IH]; intros w room Hr Hrid Hnd Hl.
  { simpl. split; [intros _; lia|done]. }
  rewrite fmap_cons in Hnd. apply NoDup_cons in Hnd as [Hmid Hnd].
  destruct (Hl (mid, m) (list_elem_of_here _ _)) as [Hhas Hfrom].
  simpl in Hhas, Hfrom. cbn [foldl fst snd].
  destruct (ensureMessage_room w r room mid m Hr)
    as (room' & Hr' & Erid & Enick & _ & Hcase).
  rewrite Hhas in Hcase. destruct Hcase as [Ehas _].
  destruct (IH (exec (ensureMessage r mid m) w) room' Hr') as [IH1 IH2].
  - by rewrite Erid.
  - done.
  - intros p Hp. destruct (Hl p (list_elem_of_further _ _ _ Hp)) as [Hh Hf].
    split; [|done]. rewrite Ehas. unfold has in *.
    rewrite lookup_insert_ne; [done|].
    intros ->. apply Hmid. apply list_elem_of_fmap. by exists p.
  - rewrite Erid, Enick in IH1. rewrite Enick in IH2. split.
    + intros Hc. rewrite (IH1 Hc).
      rewrite (ensureMessage_fetches_one w r room mid a m); try done.
      simpl. lia.
    + intros Hc. rewrite (IH2 Hc).
      apply (ensureMessage_cached_no_call w r room); [done|by rewrite Hfrom].
Qed.

Lemma nickname_fetch_per_message_witness :
  pending_fetches ["members"; "r1"; "u2"]
    (ingest 0 three_by_u2
            (run [UserChanged (Some carol); RoomAdded "r1" lobby] init))
  = 3.
Proof.
  assert (NoDup three_by_u2.*1) as Hnd.
  { simpl. repeat (apply NoDup_cons; split; [set_solver|]). apply NoDup_nil_2. }
  assert (∀ p, p ∈ three_by_u2 →
            has (∅ : gmap string bool) p.1 = false ∧ Message.from p.2 = "u2")
    as Hl.
  { intros p Hp. unfold three_by_u2 in Hp.
    repeat (apply elem_of_cons in Hp as [->|Hp]; [done|]).
    by apply elem_of_nil in Hp. }
  destruct (nickname_fetch_per_message
    (run [UserChanged (Some carol); RoomAdded "r1" lobby] init) 0
    (Room.mk "lobby" "r1" "" "unknown" [] ∅ ∅ None) "u2" three_by_u2
    eq_refl eq_refl eq_refl eq_refl Hnd Hl) as [H _].
  exact (H eq_refl).
Defined.

(** ** Failures of calls to the store *)

(** C4 does not hold of the source.  The rejection of the membership write
    of [ensureMember], of the fetch made by [ensureMessage], and of the
    clearing of [members/<rid>] in [deleteRoom] reach no handler: the error
    text stays empty and no notification is queued.  Where the source did
    attach [catch], as for the deletion of the room record, the same
    rejection is shown. *)
Theorem rejections_not_displayed :
  let w := run carol_in_lobby init in
  (handler <$> requests w) = [HNone]
  ∧ (let w' := handle (Settled 0 (Rejected "PERMISSION_DENIED")) w in
     error_shown w' = ("", []) ∧ unhandled w' = [Error "PERMISSION_DENIED"])
  ∧ (let w' := run [MessageAdded 0 "m1" (Message.mk "u2" 1 "hi");
                    Microtask; Settled 1 (Rejected "PERMISSION_DENIED")] w in
     (call <$> requests w') !! 1 = Some (COnce ["members"; "r1"; "u2"])
     ∧ error_shown w' = ("", [])
     ∧ unhandled w' = [Error "PERMISSION_DENIED"])
  ∧ (let w' := run [DeleteRoom 0; Settled 2 (Fulfilled None);
                    Settled 3 (Rejected "PERMISSION_DENIED")] w in
     (call <$> requests w') !! 3 = Some (CSet ["members"; "r1"] None)
     ∧ error_shown w' = ("", [])
     ∧ unhandled w' = [Error "PERMISSION_DENIED"])
  ∧ (let w' := run [DeleteRoom 0; Settled 2 (Rejected "PERMISSION_DENIED")] w in
     error_shown w' = ("PERMISSION_DENIED", [NotifyTask])
     ∧ unhandled w' = []).
Proof. vm_compute. repeat split. Qed.

(** ** What a method leaves alone

    Most methods touch neither [rooms], nor [currentRoom], nor the id of any
    room object.  For a reflexive and transitive relation, [preserves] goes
    through the sequencing of a method. *)

Section Preservation.
Context (R : World → World → Prop) `{!Reflexive R} `{!Transitive R}.

Lemma preserves_ret {A} (a : A) : preserves R (mret a).
Proof. intros w. apply reflexivity. Qed.

Lemma preserves_throw {A} (e : Exn) : preserves R (@throw A e).
Proof. intros w. apply reflexivity. Qed.

Lemma preserves_get : preserves R get.
Proof. intros w. apply reflexivity. Qed.

Lemma preserves_modify (f : World → World) :
  (∀ w, R w (f w)) → preserves R (modify f).
Proof. intros H w. apply H. Qed.

Lemma preserves_bind {A B} (m : JS A) (k : A → JS B) :
  preserves R m → (∀ a, preserves R (k a)) → preserves R (m ≫= k).
Proof.
  intros Hm Hk w. specialize (Hm w). js_unfold.
  destruct (m w) as [[a|e] w1]; simpl in *; [|done].
  etransitivity; [exact Hm|]. apply (Hk a w1).
Qed.

Lemma preserves_try_catch {A} (m : JS A) (h : Exn → JS A) :
  preserves R m → (∀ e, preserves R (h e)) → preserves R (try_catch m h).
Proof.
  intros Hm Hh w. specialize (Hm w). js_unfold.
  destruct (m w) as [[a|e] w1]; simpl in *; [done|].
  etransitivity; [exact Hm|]. apply (Hh e w1).
Qed.

Lemma preserves_forEach (f : ref → JS unit) (rs : list ref) :
  (∀ r, preserves R (f r)) → preserves R (forEach f rs).
Proof.
  intros Hf. induction rs as [|r rs IH]; simpl.
  - apply preserves_ret.
  - apply preserves_bind; [apply Hf|]. intros _. apply IH.
Qed.

Lemma preserves_readRoom (r : ref) : preserves R (readRoom r).
Proof.
  intros w. unfold exec, readRoom. destruct (heap w !! r); apply reflexivity.
Qed.

Lemma preserves_child (r : Ref) (k : option string) : preserves R (child r k).
Proof.
  intros w. unfold exec. destruct (child_pure r k w) as [c ->].
  apply reflexivity.
Qed.

Lemma preserves_toplevel (m : JS unit) (w : World) :
  (∀ f w, R w (set_unhandled f w)) → preserves R m → R w (toplevel m w).
Proof.
  intros Hu Hm. specialize (Hm w). unfold toplevel, exec in *.
  destruct (m w) as [[a|e] w1]; simpl in *; [done|].
  etransitivity; [exact Hm|]. apply Hu.
Qed.
End Preservation.

Lemma preserves_mono (R R' : World → World → Prop) {A} (m : JS A) :
  (∀ w w', R w w' → R' w w') → preserves R m → preserves R' m.
Proof. intros H Hm w. apply H, Hm. Qed.

#[global] Instance frame_refl : Reflexive frame.
Proof. intros w. by repeat split. Qed.
#[global] Instance frame_trans : Transitive frame.
Proof.
  intros w1 w2 w3 (? & ? & ?) (? & ? & ?). repeat split; congruence.
Qed.
#[global] Instance selecting_refl : Reflexive selecting.
Proof. intros w. split; [done|]. split; [by left|done]. Qed.
#[global] Instance selecting_trans : Transitive selecting.
Proof.
  intros w1 w2 w3 (Hr & Hc & Hh) (Hr' & Hc' & Hh').
  split; [congruence|]. split; [|congruence].
  destruct Hc' as [Hc'|(r & Hc' & Hin)].
  - rewrite Hc'. exact Hc.
  - right. exists r. by rewrite <- Hr.
Qed.
#[global] Instance registry_kept_refl : Reflexive registry_kept.
Proof. intros w. by split. Qed.
#[global] Instance registry_kept_trans : Transitive registry_kept.
Proof. intros w1 w2 w3 [? ?] [? ?]. split; congruence. Qed.

Lemma frame_selecting (w w' : World) : frame w w' → selecting w w'.
Proof. intros (? & ? & ?). split; [done|]. split; [by left|done]. Qed.

Lemma selecting_registry_kept (w w' : World) :
  selecting w w' → registry_kept w w'.
Proof. intros (? & _ & ?). by split. Qed.

Lemma rids_alter (f : Room.t → Room.t) (r : ref) (h : list Room.t) :
  (∀ x, Room.rid (f x) = Room.rid x) →
  Room.rid <$> alter f r h = Room.rid <$> h.
Proof.
  intros Hf. revert r. induction h as [|x h IH]; intros [|r]; simpl; [done..| |].
  - by rewrite Hf.
  - f_equal. apply IH.
Qed.

Lemma frame_modifyRoom (r : ref) (f : Room.t → Room.t) :
  (∀ x, Room.rid (f x) = Room.rid x) → preserves frame (modifyRoom r f).
Proof.
  intros Hf w. unfold modifyRoom. js_unfold. simpl.
  split; [done|]. split; [done|]. by apply rids_alter.
Qed.

Lemma frame_request (c : Call) (h : Handler) : preserves frame (request c h).
Proof. intros w. by repeat split. Qed.

Lemma frame_readRoom (r : ref) : preserves frame (readRoom r).
Proof.
  intros w. unfold exec, readRoom. destruct (heap w !! r); apply reflexivity.
Qed.

Lemma frame_child (r : Ref) (k : option string) : preserves frame (child r k).
Proof.
  intros w. unfold exec. destruct (child_pure r k w) as [c ->].
  apply reflexivity.
Qed.

(** Proving [preserves frame] along the text of a method. *)
Create HintDb frame.

Ltac frame_step :=
  first
    [ apply preserves_ret; tc_solve
    | apply preserves_throw; tc_solve
    | apply preserves_get; tc_solve
    | apply frame_request | apply frame_readRoom | apply frame_child
    | apply frame_modifyRoom; intros []; reflexivity
    | apply preserves_modify; intros ?; repeat split; reflexivity
    | solve [eauto with frame]
    | apply preserves_bind; [tc_solve| |intros ?]
    | apply preserves_try_catch; [tc_solve| |intros ?]
    | apply preserves_forEach; [tc_solve|tc_solve|intros ?]
    | match goal with
      | |- preserves _ (match ?x with _ => _ end) => destruct x
      end ].

Ltac frame_tac := repeat frame_step.

Lemma frame_updateListeners : preserves frame updateListeners.
Proof. unfold updateListeners. frame_tac. Qed.
#[global] Hint Resolve frame_updateListeners : frame.

Lemma frame_setNickname (name : string) : preserves frame (setNickname name).
Proof. unfold setNickname. frame_tac. Qed.
#[global] Hint Resolve frame_setNickname : frame.

Lemma frame_displayError (e : Exn) : preserves frame (displayError e).
Proof. unfold displayError. frame_tac. Qed.
#[global] Hint Resolve frame_displayError : frame.

Lemma frame_ensureSignedIn (reason : string) :
  preserves frame (ensureSignedIn reason).
Proof. unfold ensureSignedIn. frame_tac. Qed.
#[global] Hint Resolve frame_ensureSignedIn : frame.

Lemma frame_getMemberRef (rid : string) (u : option string) :
  preserves frame (getMemberRef rid u).
Proof. unfold getMemberRef. frame_tac. Qed.
#[global] Hint Resolve frame_getMemberRef : frame.

Lemma frame_getMessagesRef (rid : string) : preserves frame (getMessagesRef rid).
Proof. unfold getMessagesRef. frame_tac. Qed.
#[global] Hint Resolve frame_getMessagesRef : frame.

Lemma frame_findRoom (rid : string) : preserves frame (findRoom rid).
Proof. unfold findRoom. frame_tac. Qed.
#[global] Hint Resolve frame_findRoom : frame.

Lemma frame_listen (l : nat) : preserves frame (listen l).
Proof. unfold listen. frame_tac. Qed.

Lemma frame_unlisten : preserves frame unlisten.
Proof. unfold unlisten. frame_tac. Qed.

Lemma frame_setUnknownMembership (r : ref) :
  preserves frame (setUnknownMembership r).
Proof. unfold setUnknownMembership. frame_tac. Qed.
#[global] Hint Resolve frame_setUnknownMembership : frame.

Lemma frame_ensureMember (r : ref) : preserves frame (ensureMember r).
Proof. unfold ensureMember. frame_tac. Qed.
#[global] Hint Resolve frame_ensureMember : frame.

Lemma frame_sendMessage (r : ref) (message : string) :
  preserves frame (sendMessage r message).
Proof. unfold sendMessage. frame_tac. Qed.

Lemma frame_listenForMessages (r : ref) : preserves frame (listenForMessages r).
Proof. unfold listenForMessages. frame_tac. Qed.
#[global] Hint Resolve frame_listenForMessages : frame.

Lemma frame_addMessage (r : ref) (mid : string) (m : Message.t) :
  preserves frame (addMessage r mid m).
Proof. unfold addMessage. frame_tac. Qed.
#[global] Hint Resolve frame_addMessage : frame.

Lemma frame_setFrom (r : ref) (i : nat) (f : string) :
  preserves frame (setFrom r i f).
Proof. unfold setFrom. frame_tac. Qed.
#[global] Hint Resolve frame_setFrom : frame.

Lemma frame_ensureMessage (r : ref) (mid : string) (m : Message.t) :
  preserves frame (ensureMessage r mid m).
Proof. unfold ensureMessage. frame_tac. Qed.

Lemma frame_nicknameCallback (r : ref) (i : nat) (member : option MemberData.t) :
  preserves frame (nicknameCallback r i member).
Proof. unfold nicknameCallback. frame_tac. Qed.
#[global] Hint Resolve frame_nicknameCallback : frame.

Lemma frame_membershipCallback (r : ref) (member : option MemberData.t) :
  preserves frame (membershipCallback r member).
Proof. unfold membershipCallback. frame_tac. Qed.
#[global] Hint Resolve frame_membershipCallback : frame.

Lemma frame_roomUserListener (r : ref) (user : option User.t) :
  preserves frame (roomUserListener r user).
Proof. unfold roomUserListener. frame_tac. Qed.
#[global] Hint Resolve frame_roomUserListener : frame.

Lemma frame_appUserListener (user : option User.t) :
  preserves frame (appUserListener user).
Proof. unfold appUserListener. frame_tac. Qed.
#[global] Hint Resolve frame_appUserListener : frame.

Lemma frame_userChanged (user : option User.t) :
  preserves frame (userChanged user).
Proof. unfold userChanged. frame_tac. Qed.

Lemma frame_createRoom (name key : string) :
  preserves frame (createRoom name key).
Proof. unfold createRoom. frame_tac. Qed.

Lemma frame_createRoom_setMember (key : string) :
  preserves frame (createRoom_setMember key).
Proof. unfold createRoom_setMember. frame_tac. Qed.
#[global] Hint Resolve frame_createRoom_setMember : frame.

Lemma frame_deleteRoom (r : ref) : preserves frame (deleteRoom r).
Proof. unfold deleteRoom. frame_tac. Qed.

Lemma frame_deleteRoom_members (rid : string) :
  preserves frame (deleteRoom_members rid).
Proof. unfold deleteRoom_members. frame_tac. Qed.
#[global] Hint Resolve frame_deleteRoom_members : frame.

(** What [selectRoom] does to the registry and the selection. *)
Lemma selectRoom_exec (x : option ref) (w : World) :
  let w' := exec (selectRoom x) w in
  AppState.rooms (state w') = AppState.rooms (state w)
  ∧ Room.rid <$> heap w' = Room.rid <$> heap w
  ∧ (AppState.currentRoom (state w') = AppState.currentRoom (state w)
     ∨ (is_Some x ∧ AppState.currentRoom (state w') = x)).
Proof.
  assert (∀ r, preserves frame
            (ensureMember r;; listenForMessages r;; updateListeners)) as Htail
    by (intros r; frame_tac).
  unfold selectRoom. js_unfold. simpl. destruct x as [r|]; simpl; [|auto].
  destruct (decide (AppState.currentRoom (state w) = Some r)); simpl; [auto|].
  specialize (Htail r (set_state (AppState.set_currentRoom (Some r)) w)).
  js_unfold. destruct Htail as (Hr & Hc & Hh). simpl in *.
  rewrite Hr, Hh, Hc. eauto.
Qed.

Lemma registry_kept_selectRoom (x : option ref) :
  preserves registry_kept (selectRoom x).
Proof.
  intros w. destruct (selectRoom_exec x w) as (? & ? & _). by split.
Qed.

Lemma selecting_selectRoom (r : ref) (w : World) :
  r ∈ AppState.rooms (state w) → selecting w (exec (selectRoom (Some r)) w).
Proof.
  intros Hin. destruct (selectRoom_exec (Some r) w) as (Hr & Hh & Hc).
  split; [done|]. split; [|done].
  destruct Hc as [Hc|[_ Hc]]; [by left|]. right. by exists r.
Qed.

Lemma selecting_createRoom_select (key : string) :
  preserves selecting (createRoom_select key).
Proof.
  intros w. unfold createRoom_select, findRoom. js_unfold. simpl.
  destruct (findRoom_in _ _ _) as [r|] eqn:Hfind; simpl.
  - apply (selecting_selectRoom r w). by apply findRoom_in_elem in Hfind.
  - apply reflexivity.
Qed.

Lemma selecting_of_frame {A} (m : JS A) :
  preserves frame m → preserves selecting m.
Proof. apply preserves_mono, frame_selecting. Qed.

Lemma selecting_run_handler (h : Handler) (o : Outcome) :
  preserves selecting (run_handler h o).
Proof.
  destruct h, o; simpl;
    first [ apply selecting_of_frame; frame_tac; fail
          | apply preserves_try_catch;
              [tc_solve | apply selecting_createRoom_select
               | intros ?; apply selecting_of_frame; frame_tac] ].
Qed.

Lemma selecting_settle (i : nat) (o : Outcome) :
  preserves selecting (settle i o).
Proof.
  unfold settle.
  apply preserves_bind; [tc_solve | apply preserves_get; tc_solve |].
  intros w. destruct (requests w !! i) as [req|];
    [|apply preserves_ret; tc_solve].
  destruct (settled req); [apply preserves_ret; tc_solve|].
  apply preserves_bind; [tc_solve | | intros _; apply selecting_run_handler].
  apply preserves_modify. intros w'. apply frame_selecting. by repeat split.
Qed.

Lemma frame_run_microtask (w : World) : frame w (run_microtask w).
Proof.
  unfold run_microtask. destruct (microtasks w) as [|[] q]; [apply reflexivity|].
  simpl. destruct (listener w); by repeat split.
Qed.

Lemma frame_set_unhandled (f : list Exn → list Exn) (w : World) :
  frame w (set_unhandled f w).
Proof. by repeat split. Qed.

Lemma handle_selecting (ev : Event) (w : World) :
  registry_event ev = false →
  selects_registered ev w →
  selecting w (handle ev w).
Proof.
  assert (∀ m w, preserves frame m → selecting w (toplevel m w)) as Hframe.
  { intros m w' Hm. apply frame_selecting.
    apply preserves_toplevel; [tc_solve | apply frame_set_unhandled | done]. }
  assert (∀ f w, selecting w (set_unhandled f w)) as Hun.
  { intros f w'. apply frame_selecting, frame_set_unhandled. }
  intros Hev Hsel. destruct ev; try discriminate Hev; simpl.
  - apply Hframe, frame_userChanged.
  - destruct (allocated room w); [|apply reflexivity].
    apply Hframe. frame_tac.
  - destruct (listening room w); [|apply reflexivity].
    apply Hframe, frame_ensureMessage.
  - apply preserves_toplevel; [tc_solve | done | apply selecting_settle].
  - apply frame_selecting, frame_run_microtask.
  - apply Hframe. frame_tac.
  - apply Hframe, frame_listen.
  - apply Hframe, frame_unlisten.
  - apply Hframe, frame_createRoom.
  - destruct room as [r|]; simpl in *.
    + destruct (allocated r w); [|apply reflexivity].
      unfold toplevel. pose proof (selecting_selectRoom r w Hsel) as H.
      unfold exec in H. destruct (selectRoom (Some r) w) as [[?|e] w1]; [done|].
      simpl in H. etransitivity; [exact H|apply Hun].
    + apply reflexivity.
  - destruct (allocated room w); [|apply reflexivity].
    apply Hframe, frame_deleteRoom.
  - apply Hframe, frame_setNickname.
  - destruct (allocated room w); [|apply reflexivity].
    apply Hframe, frame_sendMessage.
Qed.

Lemma handle_registry_kept (ev : Event) (w : World) :
  registry_event ev = false → registry_kept w (handle ev w).
Proof.
  intros Hev.
  assert (selects_registered ev w → registry_kept w (handle ev w)) as Hsel.
  { intros H. by apply selecting_registry_kept, handle_selecting. }
  destruct ev as [| | | | | | | | | | |[r|]| | |]; try (by apply Hsel).
  simpl. destruct (allocated r w); [|apply reflexivity].
  apply preserves_toplevel; [tc_solve| |apply registry_kept_selectRoom].
  intros f w'. by split.
Qed.

(** ** The registry of rooms *)

Lemma registry_kept_ids (w w' : World) :
  registry_kept w w' → room_ids w' = room_ids w.
Proof.
  intros [Hr Hh]. unfold room_ids, rid_of. by rewrite Hr, Hh.
Qed.

Lemma registry_kept_ok (w w' : World) :
  registry_kept w w' → registry_ok w → registry_ok w'.
Proof.
  intros Hk [Hv Hnd]. pose proof (registry_kept_ids w w' Hk) as Hids.
  destruct Hk as [Hr Hh]. split; [|by rewrite Hids].
  rewrite Hr. apply (f_equal length) in Hh. rewrite !length_fmap in Hh.
  by rewrite Hh.
Qed.

Lemma selecting_selection_ok (w w' : World) :
  selecting w w' → selection_ok w → selection_ok w'.
Proof.
  intros (Hr & Hc & _) Hok r Hsel. rewrite Hr.
  destruct Hc as [Hc|(r' & Hc & Hin)].
  - apply Hok. by rewrite <- Hc.
  - congruence.
Qed.

Lemma toplevel_frame (m : JS unit) (w : World) :
  frame (exec m w) (toplevel m w).
Proof.
  unfold exec, toplevel. destruct (m w) as [[a|e] w1]; simpl.
  - apply reflexivity.
  - apply frame_set_unhandled.
Qed.

Lemma rid_of_lookup (w : World) (r : ref) (x : Room.t) :
  heap w !! r = Some x → rid_of w r = Room.rid x.
Proof. intros H. unfold rid_of. by rewrite list_lookup_fmap, H. Qed.

Lemma findRoom_in_Some_id (w : World) (rid : string) (rs : list ref) (r : ref) :
  findRoom_in (heap w) rid rs = Some r → rid ∈ rid_of w <$> rs.
Proof.
  intros H. apply list_elem_of_fmap. exists r.
  split; [|by apply findRoom_in_elem in H].
  apply findRoom_in_rid in H as (x & Hx & <-). by rewrite (rid_of_lookup w r x).
Qed.

Lemma findRoom_in_None_id (w : World) (rid : string) (rs : list ref) :
  findRoom_in (heap w) rid rs = None →
  Forall (λ r, r < length (heap w)) rs →
  rid ∉ rid_of w <$> rs.
Proof.
  induction rs as [|r rs IH]; simpl; intros Hfind Hv.
  - apply not_elem_of_nil.
  - apply Forall_cons in Hv as [Hr Hv].
    apply lookup_lt_is_Some in Hr as [x Hx]. rewrite Hx in Hfind.
    destruct (String.eqb (Room.rid x) rid) eqn:E; [done|].
    apply String.eqb_neq in E. rewrite (rid_of_lookup w r x Hx).
    intros [->|Hin]%elem_of_cons; [done|]. by apply IH.
Qed.

(** The world the ['child_added'] handler leaves. *)
Lemma rooms_child_added_exec (rid : string) (info : RoomData.t) (w : World) :
  let w' := exec (rooms_child_added rid info) w in
  match findRoom_in (heap w) rid (AppState.rooms (state w)) with
  | Some _ => frame w w'
  | None =>
      AppState.rooms (state w') = AppState.rooms (state w) ++ [length (heap w)]
      ∧ AppState.currentRoom (state w') = AppState.currentRoom (state w)
      ∧ Room.rid <$> heap w' = (Room.rid <$> heap w) ++ [rid]
  end.
Proof.
  unfold rooms_child_added, findRoom, newRoom. js_unfold. simpl.
  destruct (findRoom_in _ _ _) as [r|]; simpl.
  - apply frame_updateListeners.
  - match goal with |- context [updateListeners ?w0] =>
      destruct (frame_updateListeners w0) as (Hr & Hc & Hh) end.
    unfold exec in *. rewrite Hr, Hc, Hh. simpl. by rewrite fmap_app.
Qed.

Lemma rooms_child_added_ok (rid : string) (info : RoomData.t) (w : World) :
  registry_ok w →
  let w' := exec (rooms_child_added rid info) w in
  registry_ok w'
  ∧ rid ∈ room_ids w'
  ∧ (rid ∈ room_ids w → AppState.rooms (state w') = AppState.rooms (state w))
  ∧ (selection_ok w → selection_ok w').
Proof.
  intros [Hv Hnd]. pose proof (rooms_child_added_exec rid info w) as H.
  simpl in *. destruct (findRoom_in _ _ _) as [r|] eqn:Hfind.
  - assert (registry_kept w (exec (rooms_child_added rid info) w)) as Hk.
    { by apply selecting_registry_kept, frame_selecting. }
    split; [by apply (registry_kept_ok w)|].
    split; [|split].
    + rewrite (registry_kept_ids _ _ Hk). by apply (findRoom_in_Some_id w _ _ r).
    + intros _. apply Hk.
    + by apply selecting_selection_ok, frame_selecting.
  - destruct H as (Hr & Hc & Hh).
    pose proof (findRoom_in_None_id w rid _ Hfind Hv) as Hnew.
    assert (length (heap (exec (rooms_child_added rid info) w))
            = S (length (heap w))) as Hlen.
    { apply (f_equal length) in Hh.
      rewrite length_app, !length_fmap in Hh. simpl in Hh. lia. }
    assert (room_ids (exec (rooms_child_added rid info) w)
            = room_ids w ++ [rid]) as Hids.
    { unfold room_ids, rid_of. rewrite Hr, Hh, fmap_app. simpl. f_equal.
      - apply Forall_fmap_ext_1. eapply Forall_impl; [exact Hv|].
        intros r Hlt. simpl. rewrite lookup_app_l; [done|].
        by rewrite length_fmap.
      - rewrite list_lookup_middle; [done|]. by rewrite length_fmap. }
    split; [split|].
    + rewrite Hr, Hlen. apply Forall_app. split.
      * eapply Forall_impl; [exact Hv|]. intros r Hlt. simpl in *. lia.
      * apply Forall_singleton. lia.
    + rewrite Hids. apply NoDup_app. split; [done|].
      split; [|apply NoDup_singleton].
      intros x Hx ->%list_elem_of_singleton. done.
    + split; [|split].
      * rewrite Hids. apply elem_of_app. right. apply list_elem_of_here.
      * intros Hin. done.
      * intros Hok r Hsel. rewrite Hr. apply elem_of_app. left.
        apply Hok. by rewrite <- Hc.
Qed.

(** The world the ['child_removed'] handler leaves. *)
Lemma rooms_child_removed_exec (rid : string) (w : World) :
  let w' := exec (rooms_child_removed rid) w in
  match findRoom_in (heap w) rid (AppState.rooms (state w)) with
  | None => w' = w
  | Some room =>
      heap w' = heap w
      ∧ AppState.currentRoom (state w')
        = (if decide (AppState.currentRoom (state w) = Some room) then None
           else AppState.currentRoom (state w))
      ∧ ∃ i, AppState.rooms (state w) !! i = Some room
             ∧ AppState.rooms (state w') = delete i (AppState.rooms (state w))
  end.
Proof.
  unfold rooms_child_removed, findRoom. js_unfold. simpl.
  destruct (findRoom_in _ _ _) as [room|] eqn:Hfind; [|done].
  destruct (indexOf_elem room _ 0 (findRoom_in_elem _ _ _ _ Hfind))
    as (i & Hi & Hl & _).
  simpl in Hi.
  destruct (decide (AppState.currentRoom (state w) = Some room)); simpl;
    rewrite Hi; simpl; (split; [done|]); (split; [done|]); by exists i.
Qed.

Lemma elem_of_delete_other {A} (l : list A) (i : nat) (x y : A) :
  l !! i = Some y → x ∈ l → x ≠ y → x ∈ delete i l.
Proof.
  intros Hi [j Hj]%list_elem_of_lookup Hne. apply list_elem_of_lookup.
  destruct (decide (j < i)) as [Hlt|Hge].
  - exists j. by rewrite list_lookup_delete_lt.
  - assert (j ≠ i) by congruence.
    exists (j - 1). rewrite list_lookup_delete_ge by lia.
    by replace (S (j - 1)) with j by lia.
Qed.

Lemma rooms_child_removed_ok (rid : string) (w : World) :
  let w' := exec (rooms_child_removed rid) w in
  (registry_ok w → registry_ok w') ∧ (selection_ok w → selection_ok w').
Proof.
  pose proof (rooms_child_removed_exec rid w) as H. simpl in *.
  destruct (findRoom_in _ _ _) as [room|]; [|by rewrite H].
  destruct H as (Hh & Hc & i & Hi & Hr). split.
  - intros [Hv Hnd]. split.
    + rewrite Hh, Hr. by apply Forall_delete.
    + unfold room_ids, rid_of. rewrite Hh, Hr, list_fmap_delete.
      eapply sublist_NoDup; [exact Hnd|apply sublist_delete].
  - intros Hok r Hsel. rewrite Hc in Hsel. rewrite Hr.
    destruct (decide (AppState.currentRoom (state w) = Some room)); [done|].
    apply (elem_of_delete_other _ i r room); [done|by apply Hok|congruence].
Qed.

(** Every event keeps the registry well formed. *)
Lemma handle_registry_ok (ev : Event) (w : World) :
  registry_ok w → registry_ok (handle ev w).
Proof.
  intros Hok. destruct (registry_event ev) eqn:Hev.
  - assert (∀ m, registry_ok (exec m w) → registry_ok (toplevel m w)) as Htop.
    { intros m. apply registry_kept_ok, selecting_registry_kept, frame_selecting,
        toplevel_frame. }
    destruct ev; try discriminate Hev; simpl; apply Htop.
    + by apply rooms_child_added_ok.
    + by apply rooms_child_removed_ok.
  - eapply registry_kept_ok; [by apply handle_registry_kept|done].
Qed.

(** Every event of a UI that selects registered rooms keeps the selection
    in the registry. *)
Lemma handle_selection_ok (ev : Event) (w : World) :
  selects_registered ev w →
  registry_ok w → selection_ok w → selection_ok (handle ev w).
Proof.
  intros Hsel Hreg Hok. destruct (registry_event ev) eqn:Hev.
  - assert (∀ m, selection_ok (exec m w) → selection_ok (toplevel m w)) as Htop.
    { intros m. apply selecting_selection_ok, frame_selecting, toplevel_frame. }
    destruct ev; try discriminate Hev; simpl; apply Htop.
    + by apply rooms_child_added_ok.
    + by apply rooms_child_removed_ok.
  - eapply selecting_selection_ok; [by apply handle_selecting|done].
Qed.

Lemma registry_ok_init : registry_ok init.
Proof. split; [apply Forall_nil_2|apply NoDup_nil_2]. Qed.

Lemma reachable_registry_ok (P : Event → World → Prop) (w : World) :
  reachable_by P w → registry_ok w.
Proof.
  induction 1 as [|w ev _ IH _]; [apply registry_ok_init|].
  by apply handle_registry_ok.
Qed.

Lemma filter_eq_absent (x : string) (l : list string) :
  x ∉ l → filter (λ y, y = x) l = [].
Proof.
  induction l as [|y l IH]; [done|]. intros [Hne Hl]%not_elem_of_cons.
  rewrite filter_cons_False by congruence. by apply IH.
Qed.

Lemma count_in_NoDup (x : string) (l : list string) :
  NoDup l → x ∈ l → length (filter (λ y, y = x) l) = 1.
Proof.
  induction 1 as [|y l Hy Hnd IH]; intros Hin.
  - by apply elem_of_nil in Hin.
  - apply elem_of_cons in Hin as [->|Hin].
    + rewrite filter_cons_True by done. simpl.
      by rewrite filter_eq_absent.
    + rewrite filter_cons_False; [by apply IH|]. intros ->. done.
Qed.

(** C6: in every reachable world the rooms of the registry exist and no two
    of them have the same remote id.  Two deliveries of ['child_added'] with
    the same id leave exactly one room with that id: the second one inserts
    nothing. *)
Theorem room_insertion_idempotent (w : World) :
  reachable w →
  registry_ok w
  ∧ ∀ rid info1 info2,
      let w1 := handle (RoomAdded rid info1) w in
      let w2 := handle (RoomAdded rid info2) w1 in
      length (filter (λ x, x = rid) (room_ids w2)) = 1
      ∧ AppState.rooms (state w2) = AppState.rooms (state w1)
      ∧ registry_ok w2.
Proof.
  intros Hreach. pose proof (reachable_registry_ok _ w Hreach) as Hok.
  split; [done|]. intros rid info1 info2. simpl.
  set (w1 := toplevel (rooms_child_added rid info1) w).
  set (w2 := toplevel (rooms_child_added rid info2) w1).
  destruct (rooms_child_added_ok rid info1 w Hok) as (Hok1' & Hin1' & _).
  pose proof (toplevel_frame (rooms_child_added rid info1) w) as Hf1.
  apply frame_selecting, selecting_registry_kept in Hf1. fold w1 in Hf1.
  assert (registry_ok w1) as Hok1 by (by apply (registry_kept_ok _ _ Hf1)).
  assert (rid ∈ room_ids w1) as Hin1
    by (by rewrite (registry_kept_ids _ _ Hf1)).
  destruct (rooms_child_added_ok rid info2 w1 Hok1) as (Hok2' & Hin2' & Hsame & _).
  pose proof (toplevel_frame (rooms_child_added rid info2) w1) as Hf2.
  apply frame_selecting, selecting_registry_kept in Hf2. fold w2 in Hf2.
  assert (registry_ok w2) as Hok2 by (by apply (registry_kept_ok _ _ Hf2)).
  split; [|split; [|done]].
  - apply count_in_NoDup; [apply Hok2|].
    by rewrite (registry_kept_ids _ _ Hf2).
  - destruct Hf2 as [-> _]. by apply Hsame.
Qed.

Lemma room_insertion_idempotent_witness :
  let w2 := run [RoomAdded "r1" lobby; RoomAdded "r1" lobby] init in
  length (filter (λ x, x = "r1") (room_ids w2)) = 1
  ∧ AppState.rooms (state w2) = [0].
Proof.
  destruct (room_insertion_idempotent init (reach_init _)) as [_ H].
  destruct (H "r1" lobby lobby) as (H1 & H2 & _).
  split; [exact H1 | exact H2].
Defined.

(** ** The selected room *)

Lemma run_snoc (evs : list Event) (ev : Event) (w : World) :
  run (evs ++ [ev]) w = handle ev (run evs w).
Proof. unfold run. by rewrite foldl_app. Qed.

Lemma run_reachable (evs : list Event) : reachable (run evs init).
Proof.
  induction evs as [|ev evs IH] using rev_ind; [apply reach_init|].
  rewrite run_snoc. by apply reach_step.
Qed.

(** C1 as claimed fails: the run [select_removed] is one the engine can
    see, and it ends with room object 0 selected and [rooms] empty. *)
Lemma selection_outside_rooms :
  let w := run select_removed init in
  reachable w
  ∧ AppState.rooms (state w) = []
  ∧ AppState.currentRoom (state w) = Some 0
  ∧ ¬ selection_ok w.
Proof.
  split; [apply run_reachable|]. split; [reflexivity|]. split; [reflexivity|].
  intros H. specialize (H 0 eq_refl). by apply elem_of_nil in H.
Qed.

Lemma reachable_selection_ok (w : World) :
  reachable_by selects_registered w → selection_ok w.
Proof.
  induction 1 as [|w ev Hreach IH Hsel]; [intros r; discriminate|].
  apply handle_selection_ok; [done| |done].
  by apply (reachable_registry_ok selects_registered).
Qed.

(** C1, as the source has it.  [selectRoom] tests only that its argument is
    not [null] and not the current room; it does not look the room up.  So
    the selected room is in [rooms] in every world reached while the UI
    selects rooms of the registry only.  [selectRoom(null)] does nothing,
    and the removal of the selected room clears the selection. *)
Theorem selection_in_rooms (w : World) :
  reachable_by selects_registered w →
  selection_ok w
  ∧ selectRoom None w = (Normal (), w)
  ∧ ∀ rid room,
      findRoom_in (heap w) rid (AppState.rooms (state w)) = Some room →
      AppState.currentRoom (state w) = Some room →
      let w' := handle (RoomRemoved rid) w in
      AppState.currentRoom (state w') = None
      ∧ room ∉ AppState.rooms (state w').
Proof.
  intros Hreach. split; [by apply reachable_selection_ok|]. split; [done|].
  intros rid room Hfind Hcur. simpl.
  pose proof (toplevel_frame (rooms_child_removed rid) w) as (Hr & Hc & _).
  rewrite Hr, Hc.
  pose proof (rooms_child_removed_exec rid w) as H. simpl in H.
  rewrite Hfind in H. destruct H as (Hh & Hc' & i & Hi & Hr').
  rewrite Hc', Hr'. rewrite decide_True by done. split; [done|].
  pose proof (reachable_registry_ok _ w Hreach) as [Hv Hnd].
  intros [j Hj]%list_elem_of_lookup.
  assert (∃ k, k ≠ i ∧ AppState.rooms (state w) !! k = Some room)
    as (k & Hk & Hlk).
  { destruct (decide (j < i)).
    - exists j. split; [lia|]. by rewrite list_lookup_delete_lt in Hj.
    - exists (S j). split; [lia|]. by rewrite list_lookup_delete_ge in Hj by lia. }
  apply Hk. eapply (NoDup_lookup (room_ids w)); [exact Hnd| |].
  - unfold room_ids. by rewrite list_lookup_fmap, Hlk.
  - unfold room_ids. by rewrite list_lookup_fmap, Hi.
Qed.

Lemma selection_in_rooms_witness :
  let w := run [UserChanged (Some carol); RoomAdded "r1" lobby;
                SelectRoom (Some 0)] init in
  reachable_by selects_registered w
  ∧ AppState.currentRoom (state w) = Some 0
  ∧ 0 ∈ AppState.rooms (state w)
  ∧ AppState.currentRoom (state (handle (RoomRemoved "r1") w)) = None.
Proof.
  pose (r1 := reach_step selects_registered _ (UserChanged (Some carol))
                (reach_init _) I).
  pose (r2 := reach_step selects_registered _ (RoomAdded "r1" lobby) r1 I).
  pose (r3 := reach_step selects_registered _ (SelectRoom (Some 0)) r2
                (list_elem_of_here 0 [])).
  destruct (selection_in_rooms _ r3) as (Hok & _ & Hrem).
  split; [exact r3|]. split; [reflexivity|].
  split; [exact (Hok 0 eq_refl)|].
  exact (proj1 (Hrem "r1" 0 eq_refl eq_refl)).
Defined.

(** ** Coalescing of notifications *)

Lemma setNickname_mutate (name : string) (w : World) :
  setNickname name w = mutate_notify (AppState.set_nickname name, id) w.
Proof. destruct w. reflexivity. Qed.

Lemma displayError_mutate (e : Exn) (w : World) :
  displayError e w
  = mutate_notify (AppState.set_latestError (exn_message e), id) w.
Proof. destruct w. reflexivity. Qed.

Lemma mutate_notify_exec (m : Mutation) (w : World) :
  coalescer_ok w →
  let w' := exec (mutate_notify m) w in
  coalescer_ok w' ∧ pendingUpdate w' = true
  ∧ state w' = m.1 (state w) ∧ heap w' = m.2 (heap w)
  ∧ listener w' = listener w ∧ observed w' = observed w.
Proof.
  unfold coalescer_ok, mutate_notify, updateListeners. js_unfold. simpl.
  intros Hok. destruct (pendingUpdate w) eqn:Hp; simpl.
  - rewrite Hp. done.
  - rewrite Hok. done.
Qed.

Lemma synchronously_exec (ms : list Mutation) (w : World) :
  coalescer_ok w →
  let w' := synchronously ms w in
  coalescer_ok w'
  ∧ (ms ≠ [] → pendingUpdate w' = true)
  ∧ state w' = foldl (λ s m, m.1 s) (state w) ms
  ∧ heap w' = foldl (λ h m, m.2 h) (heap w) ms
  ∧ listener w' = listener w ∧ observed w' = observed w.
Proof.
  revert w. induction ms as [|m ms IH] using rev_ind; intros w Hok.
  - simpl. done.
  - unfold synchronously. rewrite !foldl_app. simpl.
    destruct (IH w Hok) as (Hok' & _ & Hs & Hh & Hl & Ho).
    fold (synchronously ms w).
    destruct (mutate_notify_exec m _ Hok') as (Hok'' & Hp & Hs' & Hh' & Hl' & Ho').
    split; [done|]. split; [done|].
    rewrite Hs', Hh', Hl', Ho', Hs, Hh. done.
Qed.

#[global] Instance coalesced_refl : Reflexive coalesced.
Proof. intros w H. exact H. Qed.
#[global] Instance coalesced_trans : Transitive coalesced.
Proof. intros w1 w2 w3 H1 H2 H. by apply H2, H1. Qed.

Lemma coalesced_updateListeners : preserves coalesced updateListeners.
Proof.
  intros w. unfold coalesced, coalescer_ok, updateListeners. js_unfold. simpl.
  intros Hok. destruct (pendingUpdate w) eqn:Hp; simpl.
  - by rewrite Hp.
  - by rewrite Hok.
Qed.

Ltac coalesce_step :=
  first
    [ apply preserves_ret; tc_solve
    | apply preserves_throw; tc_solve
    | apply preserves_get; tc_solve
    | apply preserves_readRoom; tc_solve
    | apply preserves_child; tc_solve
    | apply coalesced_updateListeners
    | apply preserves_modify; intros ? H; exact H
    | apply preserves_bind; [tc_solve| |intros ?]
    | apply preserves_try_catch; [tc_solve| |intros ?]
    | apply preserves_forEach; [tc_solve|tc_solve|intros ?]
    | match goal with
      | |- preserves _ (match ?x with _ => _ end) => destruct x
      end ].

Ltac coalesce_tac :=
  unfold userChanged, appUserListener, roomUserListener, rooms_child_added,
    rooms_child_removed, ensureMessage, settle, run_handler, displayError,
    listen, unlisten, createRoom, createRoom_setMember, createRoom_select,
    selectRoom, deleteRoom, deleteRoom_members, setNickname, sendMessage,
    ensureMember, listenForMessages, addMessage, setFrom, nicknameCallback,
    membershipCallback, setUnknownMembership, ensureSignedIn, getMemberRef,
    getMessagesRef, findRoom, newRoom, modifyRoom, request;
  repeat coalesce_step.

Lemma handle_coalescer_ok (ev : Event) (w : World) :
  coalescer_ok w → coalescer_ok (handle ev w).
Proof.
  assert (∀ m w, preserves coalesced m → coalesced w (toplevel m w)) as Htop.
  { intros m w' Hm. apply preserves_toplevel; [tc_solve| |done].
    intros f w'' H. exact H. }
  revert w. change (∀ w, coalesced w (handle ev w)).
  intros w. destruct ev; simpl;
    repeat match goal with
           | |- coalesced _ (match ?x with _ => _ end) => destruct x
           end;
    try apply reflexivity;
    try (apply Htop; coalesce_tac; fail).
  unfold coalesced, coalescer_ok, run_microtask.
    destruct (microtasks w) as [|[] q] eqn:Hq; [by rewrite Hq|].
    destruct (pendingUpdate w); [|done]. intros [= ->].
    simpl. by destruct (listener w).
Qed.

Lemma reachable_coalescer_ok (P : Event → World → Prop) (w : World) :
  reachable_by P w → coalescer_ok w.
Proof.
  induction 1 as [|w ev _ IH _]; [done|]. by apply handle_coalescer_ok.
Qed.

(** C3: in a reachable world with an observer registered, let [M >= 1]
    synchronous changes each call [updateListeners] in one tick.  When the
    microtasks have run, the observer has been called exactly once more,
    and what it was given is the state at that moment, after all [M]
    changes; no update is pending any more. *)
Theorem updateListeners_coalesces (w : World) (l : nat) (ms : list Mutation) :
  reachable w →
  listener w = Some l →
  ms ≠ [] →
  let w1 := synchronously ms w in
  let w' := drain w1 in
  observed w' = observed w ++ [(l, (getState w1, heap w1))]
  ∧ getState w1 = foldl (λ s m, m.1 s) (state w) ms
  ∧ heap w1 = foldl (λ h m, m.2 h) (heap w) ms
  ∧ pendingUpdate w' = false
  ∧ microtasks w' = [].
Proof.
  intros Hreach Hl Hms.
  pose proof (reachable_coalescer_ok _ w Hreach) as Hok.
  destruct (synchronously_exec ms w Hok) as (Hok' & Hp & Hs & Hh & Hl' & Ho).
  specialize (Hp Hms). simpl.
  unfold coalescer_ok in Hok'. rewrite Hp in Hok'.
  unfold drain. rewrite Hok'. simpl. unfold run_microtask. rewrite Hok'.
  simpl. rewrite Hl', Hl. simpl. rewrite Ho. done.
Qed.

Lemma updateListeners_coalesces_witness :
  let ms : list Mutation :=
    [(AppState.set_nickname "a", id); (AppState.set_latestError "e", id);
     (AppState.set_nickname "b", id)] in
  let w := handle (Listen 7) init in
  let w' := drain (synchronously ms w) in
  listener w = Some 7
  ∧ observed w' = [(7, (AppState.mk "b" [] None "e", []))]
  ∧ pendingUpdate w' = false.
Proof.
  pose proof (updateListeners_coalesces (handle (Listen 7) init) 7
    [(AppState.set_nickname "a", id); (AppState.set_latestError "e", id);
     (AppState.set_nickname "b", id)]
    (reach_step _ init (Listen 7) (reach_init _) I) eq_refl
    ltac:(discriminate)) as (Ho & _ & _ & Hp & _).
  split; [reflexivity|]. split; [exact Ho | exact Hp].
Defined.

(** * Further properties of the engine *)

(** ** Helpers *)

Lemma updateListeners_exec (w : World) :
  updateListeners w = (Normal (), notified w).
Proof.
  unfold updateListeners, notified. js_unfold. by destruct (pendingUpdate w).
Qed.

Lemma notified_pending (w : World) : pendingUpdate (notified w) = true.
Proof. unfold notified. by destruct (pendingUpdate w) eqn:E. Qed.

Lemma notified_same (w : World) :
  state (notified w) = state w ∧ heap (notified w) = heap w
  ∧ requests (notified w) = requests w ∧ uid (notified w) = uid w
  ∧ listener (notified w) = listener w ∧ observed (notified w) = observed w
  ∧ unhandled (notified w) = unhandled w.
Proof. unfold notified. by destruct (pendingUpdate w). Qed.

Lemma displayError_exec (e : Exn) (w : World) :
  displayError e w
  = (Normal (), notified (set_state (AppState.set_latestError (exn_message e)) w)).
Proof.
  unfold displayError. js_unfold. simpl. apply updateListeners_exec.
Qed.

Lemma selectRoom_selected (r : ref) (w : World) :
  AppState.currentRoom (state (exec (selectRoom (Some r)) w)) = Some r.
Proof.
  assert (preserves frame
            (ensureMember r;; listenForMessages r;; updateListeners)) as Htail
    by frame_tac.
  unfold selectRoom. js_unfold. simpl.
  destruct (decide (AppState.currentRoom (state w) = Some r)); simpl; [done|].
  specialize (Htail (set_state (AppState.set_currentRoom (Some r)) w)).
  js_unfold. destruct Htail as (_ & Hc & _). by rewrite Hc.
Qed.

(** ** [createRoom] *)

(** X1: [createRoom] without an identity throws the error of
    [ensureSignedIn] to its caller and makes no call on the store. *)
Theorem createRoom_signed_out (w : World) (name key : string) :
  uid w = None →
  createRoom name key w
  = (Throw (Error "Must be siged in to create a room."), w).
Proof.
  intros Hu. unfold createRoom. js_unfold.
  by rewrite (ensureSignedIn_signed_out w "create a room" Hu).
Qed.

Lemma createRoom_signed_out_witness :
  createRoom "lobby" "r1" init
  = (Throw (Error "Must be siged in to create a room."), init).
Proof. apply (createRoom_signed_out init "lobby" "r1"). reflexivity. Defined.

(** X2: when the owner's membership write of [createRoom] is acknowledged
    and the registry holds a room with the new key, that room is the
    selected one afterwards, whatever [selectRoom] ran into; the registry is
    as it was. *)
Theorem createRoom_selects_created
    (w : World) (key : string) (r : ref) (s : option MemberData.t) :
  findRoom_in (heap w) key (AppState.rooms (state w)) = Some r →
  let w' := exec (run_handler (HCreateRoomMember key) (Fulfilled s)) w in
  AppState.currentRoom (state w') = Some r
  ∧ AppState.rooms (state w') = AppState.rooms (state w).
Proof.
  intros Hfind. simpl.
  pose proof (selectRoom_selected r w) as Hsel.
  pose proof (selectRoom_exec (Some r) w) as (Hrooms & _ & _).
  unfold createRoom_select, findRoom. js_unfold. simpl. rewrite Hfind.
  simpl in *. destruct (selectRoom (Some r) w) as [[[]|e] w1]; simpl in *;
    [done|].
  rewrite displayError_exec. simpl.
  destruct (notified_same (set_state (AppState.set_latestError (exn_message e)) w1))
    as (-> & _). done.
Qed.

Lemma createRoom_selects_created_witness :
  let w := run [UserChanged (Some carol); RoomAdded "r1" lobby] init in
  AppState.currentRoom
    (state (exec (run_handler (HCreateRoomMember "r1") (Fulfilled None)) w))
  = Some 0.
Proof.
  exact (proj1 (createRoom_selects_created
    (run [UserChanged (Some carol); RoomAdded "r1" lobby] init) "r1" 0 None
    eq_refl)).
Defined.

(** X3: when that write is acknowledged before the room has arrived in the
    registry, nothing is selected: the error text becomes
    [Can't select room: <key>], a notification is scheduled, and no call is
    made. *)
Theorem createRoom_room_missing
    (w : World) (key : string) (s : option MemberData.t) :
  findRoom_in (heap w) key (AppState.rooms (state w)) = None →
  let w' := exec (run_handler (HCreateRoomMember key) (Fulfilled s)) w in
  AppState.latestError (state w') = "Can't select room: " +:+ key
  ∧ AppState.currentRoom (state w') = AppState.currentRoom (state w)
  ∧ AppState.rooms (state w') = AppState.rooms (state w)
  ∧ requests w' = requests w
  ∧ heap w' = heap w
  ∧ pendingUpdate w' = true.
Proof.
  intros Hfind. simpl.
  unfold createRoom_select, findRoom. js_unfold. simpl. rewrite Hfind. simpl.
  rewrite displayError_exec. simpl. rewrite notified_pending.
  match goal with |- context [notified ?x] =>
    destruct (notified_same x) as (-> & -> & -> & _) end.
  done.
Qed.

Lemma createRoom_room_missing_witness :
  let w := run [UserChanged (Some carol); CreateRoom "den" "k1";
                Settled 0 (Fulfilled None); Settled 1 (Fulfilled None)] init in
  AppState.latestError (state w) = "Can't select room: k1"
  ∧ AppState.currentRoom (state w) = None.
Proof.
  destruct (createRoom_room_missing
    (run [UserChanged (Some carol); CreateRoom "den" "k1";
          Settled 0 (Fulfilled None)] init) "k1" None eq_refl)
    as (He & Hc & _).
  split; [exact He | exact Hc].
Defined.

(** X4: a rejection of one of the calls that end in [catch] is shown: the
    error text becomes the rejection's message, a notification is
    scheduled, nothing is left unhandled, and no further call is made. *)
Theorem caught_rejection_displayed
    (w : World) (i : nat) (req : Request) (e : string) :
  requests w !! i = Some req →
  settled req = false →
  has_catch (handler req) = true →
  let w' := handle (Settled i (Rejected e)) w in
  AppState.latestError (state w') = e
  ∧ pendingUpdate w' = true
  ∧ unhandled w' = unhandled w
  ∧ length (requests w') = length (requests w)
  ∧ AppState.currentRoom (state w') = AppState.currentRoom (state w)
  ∧ heap w' = heap w.
Proof.
  intros Hi Hs Hc. simpl. unfold toplevel, settle. js_unfold. simpl.
  rewrite Hi, Hs. simpl.
  assert (run_handler (handler req) (Rejected e) = displayError (Error e)) as ->.
  { by destruct (handler req). }
  rewrite displayError_exec. simpl. rewrite notified_pending.
  match goal with |- context [notified ?x] =>
    destruct (notified_same x) as (-> & -> & -> & _ & _ & _ & ->) end.
  simpl. by rewrite length_insert.
Qed.

Lemma caught_rejection_displayed_witness :
  let w := run [UserChanged (Some carol); CreateRoom "den" "k1"] init in
  let w' := handle (Settled 0 (Rejected "PERMISSION_DENIED")) w in
  AppState.latestError (state w') = "PERMISSION_DENIED"
  ∧ pendingUpdate w' = true.
Proof.
  destruct (caught_rejection_displayed
    (run [UserChanged (Some carol); CreateRoom "den" "k1"] init) 0
    (mkRequest (CSet ["rooms"; "k1"] (Some (VRoom (RoomData.mk false "den"))))
               (HCreateRoomSet "k1") false)
    "PERMISSION_DENIED" eq_refl eq_refl eq_refl) as (He & Hp & _).
  split; [exact He | exact Hp].
Defined.

(** ** [deleteRoom] *)

(** X5: [deleteRoom] only talks to the store.  It asks for the room's
    messages to be cleared (with nothing attached to that call) and for the
    room record to be deleted; the room stays in [rooms], the selection and
    every room object stay as they are, and no notification is scheduled. *)
Theorem deleteRoom_calls (w : World) (r : ref) (room : Room.t) :
  heap w !! r = Some room →
  isValidPathString (Some (Room.rid room)) = true →
  deleteRoom r w
  = (Normal (),
     set_requests
       (λ rs, rs ++ [mkRequest (CSet ["messages"; Room.rid room] None) HNone false;
                     mkRequest (CSet ["rooms"; Room.rid room] None)
                               (HDeleteRoom (Room.rid room)) false]) w).
Proof.
  intros Hr Hrid. unfold deleteRoom, readRoom, getMessagesRef, request.
  js_unfold. rewrite Hr. simpl. rewrite (child_valid _ _ _ Hrid). simpl.
  rewrite (child_valid _ _ _ Hrid). simpl.
  destruct w. unfold set_requests. simpl. by rewrite <- app_assoc.
Qed.

Lemma deleteRoom_calls_witness :
  let w := exec (deleteRoom 0) (run carol_in_lobby init) in
  AppState.rooms (state w) = [0]
  ∧ AppState.currentRoom (state w) = Some 0
  ∧ (call <$> requests w) !! 2 = Some (CSet ["rooms"; "r1"] None).
Proof.
  pose proof (deleteRoom_calls (run carol_in_lobby init) 0
    (Room.mk "lobby" "r1" "" "unknown" [] ∅ ∅ (Some ["messages"; "r1"]))
    eq_refl eq_refl) as H.
  unfold exec. rewrite H. repeat split.
Defined.

(** X6: the membership records of a deleted room are cleared only once the
    deletion of the room record is acknowledged, by a call with nothing
    attached; when that deletion is rejected, no clearing call is made. *)
Theorem deleteRoom_members_after_ack
    (w : World) (rid e : string) (s : option MemberData.t) :
  isValidPathString (Some rid) = true →
  run_handler (HDeleteRoom rid) (Fulfilled s) w
  = (Normal (),
     set_requests
       (λ rs, rs ++ [mkRequest (CSet ["members"; rid] None) HNone false]) w)
  ∧ requests (exec (run_handler (HDeleteRoom rid) (Rejected e)) w) = requests w.
Proof.
  intros Hrid. split.
  - simpl. unfold deleteRoom_members, request. js_unfold.
    by rewrite (child_valid _ _ _ Hrid).
  - simpl. unfold exec. rewrite displayError_exec. simpl.
    match goal with |- context [notified ?x] =>
      destruct (notified_same x) as (_ & _ & -> & _) end.
    done.
Qed.

Lemma deleteRoom_members_after_ack_witness :
  let w := run (carol_in_lobby ++ [DeleteRoom 0]) init in
  (call <$> requests (exec (run_handler (HDeleteRoom "r1") (Fulfilled None)) w))
    !! 3 = Some (CSet ["members"; "r1"] None)
  ∧ length (requests (exec (run_handler (HDeleteRoom "r1") (Rejected "no")) w))
    = 3.
Proof.
  destruct (deleteRoom_members_after_ack
    (run (carol_in_lobby ++ [DeleteRoom 0]) init) "r1" "no" None eq_refl)
    as [H1 H2].
  unfold exec at 1. rewrite H1. rewrite H2. split; reflexivity.
Defined.

(** ** [listenForMessages] *)

(** X7: [listenForMessages] subscribes once.  The first call on a room
    sets [messageQuery] to the room's message path; a room that has a query
    is left alone, so a second call changes nothing. *)
Theorem listenForMessages_once (w : World) (r : ref) (room : Room.t) :
  heap w !! r = Some room →
  isValidPathString (Some (Room.rid room)) = true →
  let w' := exec (listenForMessages r) w in
  heap w' !! r
  = Some (Room.set_messageQuery
            (Some (default ["messages"; Room.rid room] (Room.messageQuery room)))
            room)
  ∧ requests w' = requests w
  ∧ exec (listenForMessages r) w' = w'.
Proof.
  intros Hr Hrid.
  assert (∀ w0 room0, heap w0 !! r = Some room0 →
            is_Some (Room.messageQuery room0) →
            exec (listenForMessages r) w0 = w0) as Hagain.
  { intros w0 room0 H0 [q Hq]. unfold listenForMessages, readRoom. js_unfold.
    by rewrite H0, Hq. }
  destruct (Room.messageQuery room) as [q|] eqn:Hq; simpl.
  - rewrite (Hagain w room Hr) by (rewrite Hq; eauto).
    split; [|split; [done|]].
    + rewrite Hr. f_equal. destruct room. simpl in *. by subst.
    + apply (Hagain w room Hr). rewrite Hq. eauto.
  - assert (exec (listenForMessages r) w
            = set_heap (alter (Room.set_messageQuery
                                 (Some ["messages"; Room.rid room])) r) w) as ->.
    { unfold listenForMessages, readRoom, getMessagesRef, modifyRoom.
      js_unfold. rewrite Hr, Hq. by rewrite (child_valid _ _ _ Hrid). }
    simpl. split; [by apply alter_lookup_Some|]. split; [done|].
    eapply Hagain; [by apply alter_lookup_Some|]. simpl. eauto.
Qed.

Lemma listenForMessages_once_witness :
  let w := run [UserChanged (Some carol); RoomAdded "r1" lobby] init in
  let w' := exec (listenForMessages 0) w in
  (Room.messageQuery <$> heap w') = [Some ["messages"; "r1"]]
  ∧ exec (listenForMessages 0) w' = w'.
Proof.
  destruct (listenForMessages_once
    (run [UserChanged (Some carol); RoomAdded "r1" lobby] init) 0
    (Room.mk "lobby" "r1" "" "unknown" [] ∅ ∅ None) eq_refl eq_refl)
    as (_ & _ & H).
  split; [reflexivity | exact H].
Defined.

(** ** The listeners on the identity *)

(** X8: when the identity goes away, a room forgets its membership: role
    [''] and nickname [unknown]; a notification is scheduled and no call is
    made. *)
Theorem roomUserListener_signed_out (w : World) (r : ref) (room : Room.t) :
  heap w !! r = Some room →
  let w' := exec (roomUserListener r None) w in
  heap w' = <[r := Room.set_membership "" "unknown" room]> (heap w)
  ∧ requests w' = requests w
  ∧ state w' = state w
  ∧ pendingUpdate w' = true.
Proof.
  intros Hr. simpl. unfold roomUserListener, setUnknownMembership, modifyRoom.
  js_unfold. simpl. rewrite updateListeners_exec. simpl.
  rewrite notified_pending.
  match goal with |- context [notified ?x] =>
    destruct (notified_same x) as (-> & -> & -> & _) end.
  simpl. split; [|done].
  apply list_eq. intros j. destruct (decide (j = r)) as [->|Hne].
  - rewrite list_lookup_alter_eq, Hr. simpl.
    rewrite list_lookup_insert_eq; [done|]. by apply lookup_lt_Some in Hr.
  - by rewrite list_lookup_alter_ne, list_lookup_insert_ne.
Qed.

Lemma roomUserListener_signed_out_witness :
  let w := run [UserChanged (Some carol); RoomAdded "r1" lobby;
                UserReplayed 0 (Some carol);
                Settled 0 (Fulfilled (Some (MemberData.mk "Caz" "owner")))] init in
  (Room.role <$> heap w) = ["owner"]
  ∧ (Room.role <$> heap (exec (roomUserListener 0 None) w)) = [""].
Proof.
  destruct (roomUserListener_signed_out
    (run [UserChanged (Some carol); RoomAdded "r1" lobby;
          UserReplayed 0 (Some carol);
          Settled 0 (Fulfilled (Some (MemberData.mk "Caz" "owner")))] init) 0
    (Room.mk "lobby" "r1" "owner" "Caz" [] ∅ ∅ None) eq_refl) as (H & _).
  split; [reflexivity|]. rewrite H. reflexivity.
Defined.

(** X9: when an identity arrives, a room asks once for that account's
    membership record and changes nothing else: until the answer comes the
    room keeps the role and nickname it had, and no notification is
    scheduled. *)
Theorem roomUserListener_signed_in
    (w : World) (r : ref) (room : Room.t) (user : User.t) :
  heap w !! r = Some room →
  isValidPathString (Some (Room.rid room)) = true →
  isValidPathString (Some (User.uid user)) = true →
  roomUserListener r (Some user) w
  = (Normal (),
     set_requests
       (λ rs, rs ++ [mkRequest (COnce ["members"; Room.rid room; User.uid user])
                               (HMembership r) false]) w).
Proof.
  intros Hr Hrid Hu. unfold roomUserListener, readRoom, request. js_unfold.
  rewrite Hr. rewrite getMemberRef_result. simpl.
  destruct (isValidPathString_present _ Hu) as (u & [= <-] & Hne).
  assert (truthy (User.uid user) = true) as ->.
  { unfold truthy. apply negb_true_iff. by apply String.eqb_neq. }
  by rewrite Hrid, Hu.
Qed.

Lemma roomUserListener_signed_in_witness :
  let w := run [RoomAdded "r1" lobby] init in
  requests (exec (roomUserListener 0 (Some carol)) w)
  = [mkRequest (COnce ["members"; "r1"; "u1"]) (HMembership 0) false].
Proof.
  pose proof (roomUserListener_signed_in (run [RoomAdded "r1" lobby] init) 0
    (Room.mk "lobby" "r1" "" "unknown" [] ∅ ∅ None) carol
    eq_refl eq_refl eq_refl) as H.
  unfold exec. rewrite H. reflexivity.
Defined.

(** X10: the engine's own listener.  Without an identity the account id is
    dropped and the nickname becomes [anonymous]; with one the account id is
    taken over, and the nickname only when the account has a non-empty
    display name: otherwise the nickname stays what it was and no
    notification is scheduled. *)
Theorem appUserListener_exec (w : World) (user : option User.t) :
  let w' := exec (appUserListener user) w in
  uid w' = User.uid <$> user
  ∧ heap w' = heap w
  ∧ requests w' = requests w
  ∧ match user with
    | None =>
        AppState.nickname (state w') = "anonymous" ∧ pendingUpdate w' = true
    | Some u =>
        match User.displayName u with
        | Some name =>
            if truthy name
            then AppState.nickname (state w') = name ∧ pendingUpdate w' = true
            else state w' = state w ∧ pendingUpdate w' = pendingUpdate w
        | None => state w' = state w ∧ pendingUpdate w' = pendingUpdate w
        end
    end.
Proof.
  simpl. unfold appUserListener, setNickname. js_unfold.
  destruct user as [u|]; simpl.
  - destruct (User.displayName u) as [name|]; simpl; [|done].
    destruct (truthy name); simpl; [|done].
    rewrite updateListeners_exec. simpl. rewrite notified_pending.
    match goal with |- context [notified ?x] =>
      destruct (notified_same x) as (-> & -> & -> & -> & _) end.
    done.
  - rewrite updateListeners_exec. simpl. rewrite notified_pending.
    match goal with |- context [notified ?x] =>
      destruct (notified_same x) as (-> & -> & -> & -> & _) end.
    done.
Qed.

(** ** The membership of a room *)

(** X11: the answer to the constructor's fetch is what the room shows: a
    record gives the room its role and nickname, no record resets them to
    [''] and [unknown]; either way a notification is scheduled.  After a
    record with a non-empty role, [ensureMember] writes nothing. *)
Theorem membershipCallback_exec
    (w : World) (r : ref) (room : Room.t) (member : option MemberData.t) :
  heap w !! r = Some room →
  let w' := exec (membershipCallback r member) w in
  let room' :=
    match member with
    | Some m => Room.set_membership (MemberData.role m) (MemberData.nickname m) room
    | None => Room.set_membership "" "unknown" room
    end in
  heap w' !! r = Some room'
  ∧ pendingUpdate w' = true
  ∧ requests w' = requests w
  ∧ (Room.role room' ≠ "" → requests (exec (ensureMember r) w') = requests w').
Proof.
  intros Hr. simpl.
  assert (∀ f, let w' := exec (modifyRoom r f;; updateListeners) w in
               heap w' !! r = Some (f room) ∧ pendingUpdate w' = true
               ∧ requests w' = requests w) as Hmod.
  { intros f. simpl. unfold modifyRoom. js_unfold. simpl.
    rewrite updateListeners_exec. simpl. rewrite notified_pending.
    match goal with |- context [notified ?x] =>
      destruct (notified_same x) as (_ & -> & -> & _) end.
    simpl. split; [by apply alter_lookup_Some|done]. }
  assert (∀ w' room', heap w' !! r = Some room' → Room.role room' ≠ "" →
            requests (exec (ensureMember r) w') = requests w') as Hno.
  { intros w' room' Hr' Hrole. rewrite (ensureMember_exec w' r room' Hr').
    simpl. unfold ensureMember_calls.
    apply String.eqb_neq in Hrole. rewrite Hrole. simpl. by rewrite app_nil_r. }
  unfold membershipCallback, setUnknownMembership.
  destruct member as [m|];
    match goal with |- context [modifyRoom r ?f] =>
      destruct (Hmod f) as (H1 & H2 & H3) end;
    (split; [exact H1|]); (split; [exact H2|]); (split; [exact H3|]);
    intros Hrole; by eapply Hno.
Qed.

Lemma membershipCallback_exec_witness :
  let w := run [UserChanged (Some carol); RoomAdded "r1" lobby] init in
  let w' := exec (membershipCallback 0 (Some (MemberData.mk "Caz" "owner"))) w in
  (Room.role <$> heap w') = ["owner"]
  ∧ requests (exec (ensureMember 0) w') = requests w'.
Proof.
  destruct (membershipCallback_exec
    (run [UserChanged (Some carol); RoomAdded "r1" lobby] init) 0
    (Room.mk "lobby" "r1" "" "unknown" [] ∅ ∅ None)
    (Some (MemberData.mk "Caz" "owner")) eq_refl) as (_ & _ & _ & H).
  split; [reflexivity|]. apply H. discriminate.
Defined.

(** ** Messages and nicknames *)

Lemma alter_last {A} (f : A → A) (l : list A) (x : A) :
  alter f (length l) (l ++ [x]) = l ++ [f x].
Proof.
  replace (length l) with (length l + 0) by lia. by rewrite alter_app_r.
Qed.

Lemma alter_twice_insert {A} (f : A → A) (l : list A) (i : nat) (x : A) :
  l !! i = Some x → (∀ y, f (f y) = f y) →
  alter f i (alter f i l) = <[i := f x]> l.
Proof.
  intros Hi Hf. apply list_eq. intros j. destruct (decide (j = i)) as [->|Hne].
  - rewrite !list_lookup_alter_eq, Hi. simpl. rewrite Hf.
    rewrite list_lookup_insert_eq; [done|]. by apply lookup_lt_Some in Hi.
  - by rewrite !list_lookup_alter_ne, list_lookup_insert_ne.
Qed.

(** The message object [ensureMessage] stores for a new id. *)
Lemma ensureMessage_heap (w : World) (r : ref) (room : Room.t)
    (mid : string) (msg : Message.t) :
  heap w !! r = Some room →
  has (Room.hasMessage room) mid = false →
  heap (exec (ensureMessage r mid msg) w) !! r
  = Some (Room.mk (Room.name room) (Room.rid room) (Room.role room)
            (Room.nickname room)
            (Room.messages room
             ++ [match cached (Room.nicknameOf room) (key_of (Message.from msg)) with
                 | Some nick => Message.set_from nick msg
                 | None => msg
                 end])
            (<[mid := true]> (Room.hasMessage room))
            (Room.nicknameOf room) (Room.messageQuery room)).
Proof.
  intros Hr Hhas.
  unfold ensureMessage, addMessage, setFrom, modifyRoom, readRoom. js_unfold.
  rewrite Hr, Hhas. simpl. rewrite Hr. simpl.
  destruct (cached (Room.nicknameOf room) (key_of (Message.from msg)))
    as [nick|]; simpl.
  - rewrite updateListeners_exec. simpl.
    match goal with |- context [notified ?x] =>
      destruct (notified_same x) as (_ & -> & _) end.
    simpl. rewrite !list_lookup_alter_eq, Hr. simpl.
    by rewrite alter_last.
  - match goal with |- context [getMemberRef ?a ?b ?c] =>
      destruct (getMemberRef_pure a b c) as [[p|e] ->] end; simpl;
      by rewrite list_lookup_alter_eq, Hr.
Qed.

(** X12: the log of a room only grows at its end.  [ensureMessage] leaves
    the stored messages where they are.  For an id that reads as seen
    (marked, or a name of [Object.prototype]) nothing is appended; for any
    other id the delivered message is appended, with its author replaced by
    what [nicknameOf] yields for the author id when that is truthy (a
    cached nickname, or the inherited value for a name of
    [Object.prototype]), as delivered otherwise.  This holds also when
    building the reference for the fetch throws. *)
Theorem ensureMessage_appends (w : World) (r : ref) (room : Room.t)
    (mid : string) (msg : Message.t) :
  heap w !! r = Some room →
  log r (exec (ensureMessage r mid msg) w)
  = Room.messages room
    ++ (if has (Room.hasMessage room) mid then []
        else [match cached (Room.nicknameOf room) (key_of (Message.from msg)) with
              | Some nick => Message.set_from nick msg
              | None => msg
              end]).
Proof.
  intros Hr. unfold log.
  destruct (has (Room.hasMessage room) mid) eqn:Hhas.
  - destruct (ensureMessage_seen w r room mid msg Hr) as [E|E]; [|congruence].
    unfold exec. rewrite E. simpl. by rewrite Hr, app_nil_r.
  - by rewrite (ensureMessage_heap w r room mid msg Hr Hhas).
Qed.

Lemma ensureMessage_appends_witness :
  let w := run carol_in_lobby init in
  log 0 (ingest 0 [("m1", Message.mk "u2" 1 "hi"); ("m2", Message.mk "u3" 2 "yo")] w)
  = [Message.mk "u2" 1 "hi"; Message.mk "u3" 2 "yo"].
Proof.
  pose proof (ensureMessage_appends
    (exec (ensureMessage 0 "m1" (Message.mk "u2" 1 "hi")) (run carol_in_lobby init))
    0 (Room.mk "lobby" "r1" "" "unknown" [Message.mk "u2" 1 "hi"]
               {["m1" := true]} ∅ (Some ["messages"; "r1"]))
    "m2" (Message.mk "u3" 2 "yo") eq_refl) as H.
  exact H.
Defined.

(** X13: a message with an id that does not read as seen, by an author for
    whom [nicknameOf] yields a truthy value, is stored with that value as
    its author at once: no fetch is made, and a notification is
    scheduled. *)
Theorem ensureMessage_cached_author (w : World) (r : ref) (room : Room.t)
    (mid : string) (nick : From) (msg : Message.t) :
  heap w !! r = Some room →
  has (Room.hasMessage room) mid = false →
  cached (Room.nicknameOf room) (key_of (Message.from msg)) = Some nick →
  let w' := exec (ensureMessage r mid msg) w in
  log r w' = Room.messages room ++ [Message.set_from nick msg]
  ∧ requests w' = requests w
  ∧ pendingUpdate w' = true.
Proof.
  intros Hr Hhas Hc. simpl. split; [|split].
  - unfold log. by rewrite (ensureMessage_heap w r room mid msg Hr Hhas), Hc.
  - apply (ensureMessage_cached_no_call w r room); [done|]. rewrite Hc. eauto.
  - unfold ensureMessage, addMessage, setFrom, modifyRoom, readRoom. js_unfold.
    rewrite Hr, Hhas. simpl. rewrite Hr, Hc. simpl.
    rewrite updateListeners_exec. simpl. apply notified_pending.
Qed.

Lemma ensureMessage_cached_author_witness :
  let w := run (one_message
                ++ [Settled 1 (Fulfilled (Some (MemberData.mk "Dee" "member")))])
               init in
  let w' := exec (ensureMessage 0 "m2" (Message.mk "u2" 2 "yo")) w in
  log 0 w' = [Message.mk "Dee" 1 "hi"; Message.mk "Dee" 2 "yo"]
  ∧ requests w' = requests w.
Proof.
  set (w := run (one_message
                 ++ [Settled 1 (Fulfilled (Some (MemberData.mk "Dee" "member")))])
                init).
  set (room := Room.mk "lobby" "r1" "" "unknown" [Message.mk "Dee" 1 "hi"]
                       {["m1" := true]} {["u2" := "Dee"]}
                       (Some ["messages"; "r1"])).
  assert (heap w !! 0 = Some room) as H1 by (vm_compute; reflexivity).
  assert (has (Room.hasMessage room) "m2" = false) as H2
    by (vm_compute; reflexivity).
  assert (cached (Room.nicknameOf room) "u2" = Some (Text "Dee")) as H3
    by (vm_compute; reflexivity).
  destruct (ensureMessage_cached_author w 0 room "m2" "Dee"
              (Message.mk "u2" 2 "yo") H1 H2 H3) as (Hl & Hq & _).
  split; [exact Hl | exact Hq].
Defined.

(** The room object the nickname callback leaves on a record. *)
Lemma nicknameCallback_heap (w : World) (r : ref) (room : Room.t)
    (i : nat) (msg : Message.t) (m : MemberData.t) :
  heap w !! r = Some room →
  Room.messages room !! i = Some msg →
  let w' := exec (nicknameCallback r i (Some m)) w in
  heap w' !! r
  = Some (Room.mk (Room.name room) (Room.rid room) (Room.role room)
            (Room.nickname room)
            (<[i := Message.set_from (MemberData.nickname m) msg]>
               (Room.messages room))
            (Room.hasMessage room)
            (<[key_of (Message.from msg) := MemberData.nickname m]>
               (Room.nicknameOf room))
            (Room.messageQuery room))
  ∧ requests w' = requests w
  ∧ state w' = state w
  ∧ pendingUpdate w' = true.
Proof.
  intros Hr Hi. simpl.
  unfold nicknameCallback, setFrom, modifyRoom, readRoom. js_unfold.
  rewrite Hr, Hi. simpl. rewrite updateListeners_exec. simpl.
  rewrite notified_pending.
  match goal with |- context [notified ?x] =>
    destruct (notified_same x) as (-> & -> & -> & _) end.
  simpl. split; [|done].
  rewrite !list_lookup_alter_eq, Hr. simpl.
  by rewrite (alter_twice_insert _ _ _ msg).
Qed.

(** X14: when the fetched record arrives, exactly the message the fetch was
    made for gets the record's nickname as its author; the other messages,
    the marks of seen ids and the calls are untouched, the nickname is
    cached under the author id the message carried, and a notification is
    scheduled. *)
Theorem nicknameCallback_backfills (w : World) (r : ref) (room : Room.t)
    (i : nat) (msg : Message.t) (m : MemberData.t) :
  heap w !! r = Some room →
  Room.messages room !! i = Some msg →
  let w' := exec (nicknameCallback r i (Some m)) w in
  log r w' = <[i := Message.set_from (MemberData.nickname m) msg]>
               (Room.messages room)
  ∧ (∀ j, j ≠ i → log r w' !! j = Room.messages room !! j)
  ∧ (Room.nicknameOf <$> heap w' !! r)
    = Some (<[key_of (Message.from msg) := MemberData.nickname m]>
              (Room.nicknameOf room))
  ∧ seen r w' = seen r w
  ∧ requests w' = requests w
  ∧ pendingUpdate w' = true.
Proof.
  intros Hr Hi.
  destruct (nicknameCallback_heap w r room i msg m Hr Hi) as (Hh & Hq & _ & Hp).
  simpl in *. unfold log, seen. rewrite Hh, Hr. simpl.
  repeat (split; [done|]). split; [|done].
  intros j Hne. by rewrite list_lookup_insert_ne.
Qed.

Lemma nicknameCallback_backfills_witness :
  let w := run two_messages init in
  log 0 (exec (nicknameCallback 0 1 (Some (MemberData.mk "Dee" "member"))) w)
  = [Message.mk "u2" 1 "hi"; Message.mk "Dee" 2 "yo"].
Proof.
  exact (proj1 (nicknameCallback_backfills (run two_messages init) 0
    (Room.mk "lobby" "r1" "" "unknown"
             [Message.mk "u2" 1 "hi"; Message.mk "u2" 2 "yo"]
             (<["m2" := true]> {["m1" := true]}) ∅ (Some ["messages"; "r1"]))
    1 (Message.mk "u2" 2 "yo") (MemberData.mk "Dee" "member") eq_refl eq_refl)).
Defined.

Lemma cached_insert (n : gmap string string) (a nick : string) :
  cached (<[a := nick]> n) a = if truthy nick then Some (Text nick) else None.
Proof. unfold cached. by rewrite lookup_insert_eq. Qed.

(** X15: once a fetch has brought a non-empty nickname for an author whose
    id is not a name of [Object.prototype], later messages by the same
    author, with ids that do not read as seen, are stored with that
    nickname and cause no call. *)
Theorem backfill_then_cached (w : World) (r : ref) (room : Room.t)
    (i : nat) (msg msg2 : Message.t) (m : MemberData.t) (mid a : string) :
  heap w !! r = Some room →
  Room.messages room !! i = Some msg →
  Message.from msg = a →
  Message.from msg2 = a →
  inherited a = false →
  truthy (MemberData.nickname m) = true →
  has (Room.hasMessage room) mid = false →
  let w1 := exec (nicknameCallback r i (Some m)) w in
  let w2 := exec (ensureMessage r mid msg2) w1 in
  requests w2 = requests w
  ∧ log r w2
    = <[i := Message.set_from (MemberData.nickname m) msg]> (Room.messages room)
      ++ [Message.set_from (MemberData.nickname m) msg2].
Proof.
  intros Hr Hi Hfrom Hfrom2 _ Hn Hhas.
  destruct (nicknameCallback_heap w r room i msg m Hr Hi) as (Hh & Hq & _).
  simpl in *.
  set (w1 := exec (nicknameCallback r i (Some m)) w) in *.
  match type of Hh with _ = Some ?x => set (room1 := x) in * end.
  assert (cached (Room.nicknameOf room1) (key_of (Message.from msg2))
          = Some (Text (MemberData.nickname m))) as Hc.
  { simpl. rewrite Hfrom, Hfrom2. cbn [key_of]. by rewrite cached_insert, Hn. }
  split.
  - rewrite <- Hq. apply (ensureMessage_cached_no_call w1 r room1); [done|].
    rewrite Hc. eauto.
  - unfold log. rewrite (ensureMessage_heap w1 r room1 mid msg2 Hh Hhas).
    by rewrite Hc.
Qed.

Lemma backfill_then_cached_witness :
  let w := run one_message init in
  let w1 := exec (nicknameCallback 0 0 (Some (MemberData.mk "Dee" "member"))) w in
  let w2 := exec (ensureMessage 0 "m2" (Message.mk "u2" 2 "yo")) w1 in
  log 0 w2 = [Message.mk "Dee" 1 "hi"; Message.mk "Dee" 2 "yo"]
  ∧ requests w2 = requests w.
Proof.
  set (w := run one_message init).
  set (room := Room.mk "lobby" "r1" "" "unknown" [Message.mk "u2" 1 "hi"]
                       {["m1" := true]} ∅ (Some ["messages"; "r1"])).
  assert (heap w !! 0 = Some room) as H1 by (vm_compute; reflexivity).
  assert (has (Room.hasMessage room) "m2" = false) as H2
    by (vm_compute; reflexivity).
  destruct (backfill_then_cached w 0 room 0 (Message.mk "u2" 1 "hi")
              (Message.mk "u2" 2 "yo") (MemberData.mk "Dee" "member") "m2" "u2"
              H1 eq_refl eq_refl eq_refl eq_refl eq_refl H2) as (Hq & Hl).
  split; [exact Hl | exact Hq].
Defined.

(** X16: a record with an empty nickname is never taken from the cache: the
    next message by that author (an id the store client accepts, not a name
    of [Object.prototype]) with an id that does not read as seen is fetched
    for again. *)
Theorem empty_nickname_refetched (w : World) (r : ref) (room : Room.t)
    (i : nat) (msg msg2 : Message.t) (m : MemberData.t) (mid a : string) :
  heap w !! r = Some room →
  Room.messages room !! i = Some msg →
  Message.from msg = a →
  Message.from msg2 = a →
  inherited a = false →
  MemberData.nickname m = "" →
  has (Room.hasMessage room) mid = false →
  isValidPathString (Some (Room.rid room)) = true →
  isValidPathString (Some a) = true →
  let w1 := exec (nicknameCallback r i (Some m)) w in
  let w2 := exec (ensureMessage r mid msg2) w1 in
  pending_fetches ["members"; Room.rid room; a] w2
  = S (pending_fetches ["members"; Room.rid room; a] w).
Proof.
  intros Hr Hi Hfrom Hfrom2 _ Hn Hhas Hrid Ha.
  destruct (nicknameCallback_heap w r room i msg m Hr Hi) as (Hh & Hq & _).
  simpl in *.
  set (w1 := exec (nicknameCallback r i (Some m)) w) in *.
  match type of Hh with _ = Some ?x => set (room1 := x) in * end.
  assert (pending_fetches ["members"; Room.rid room; a] w1
          = pending_fetches ["members"; Room.rid room; a] w)
    as <- by (unfold pending_fetches; by rewrite Hq).
  apply (ensureMessage_fetches_one w1 r room1 mid a msg2); try done.
  simpl. rewrite Hfrom. cbn [key_of]. by rewrite cached_insert, Hn.
Qed.

Lemma empty_nickname_refetched_witness :
  let w := run one_message init in
  let w1 := exec (nicknameCallback 0 0 (Some (MemberData.mk "" "member"))) w in
  let w2 := exec (ensureMessage 0 "m2" (Message.mk "u2" 2 "yo")) w1 in
  pending_fetches ["members"; "r1"; "u2"] w2 = 2.
Proof.
  set (w := run one_message init).
  set (room := Room.mk "lobby" "r1" "" "unknown" [Message.mk "u2" 1 "hi"]
                       {["m1" := true]} ∅ (Some ["messages"; "r1"])).
  assert (heap w !! 0 = Some room) as H1 by (vm_compute; reflexivity).
  assert (has (Room.hasMessage room) "m2" = false) as H2
    by (vm_compute; reflexivity).
  exact (empty_nickname_refetched w 0 room 0 (Message.mk "u2" 1 "hi")
           (Message.mk "u2" 2 "yo") (MemberData.mk "" "member") "m2" "u2"
           H1 eq_refl eq_refl eq_refl eq_refl eq_refl H2 eq_refl eq_refl).
Defined.

(** ** The observer *)

(** X17: registering an observer brings it the current state: in a
    reachable world, after [listen] and the microtasks the new observer has
    been called exactly once, with the state as it is, whether or not an
    update was already pending. *)
Theorem listen_delivers_state (w : World) (l : nat) :
  reachable w →
  let w' := drain (exec (listen l) w) in
  observed w' = observed w ++ [(l, (state w, heap w))]
  ∧ listener w' = Some l
  ∧ pendingUpdate w' = false
  ∧ microtasks w' = [].
Proof.
  intros Hreach. pose proof (reachable_coalescer_ok _ w Hreach) as Hok.
  unfold coalescer_ok in Hok. simpl.
  unfold listen. js_unfold. simpl. rewrite updateListeners_exec. simpl.
  unfold notified, drain, run_microtask. simpl.
  destruct (pendingUpdate w); simpl; rewrite ?Hok; simpl; rewrite ?Hok; done.
Qed.

Lemma listen_delivers_state_witness :
  let w := run [UserChanged (Some carol); Listen 1; RoomAdded "r1" lobby] init in
  observed (drain (exec (listen 2) w))
  = [(2, (AppState.mk "Carol" [0] None "",
          [Room.mk "lobby" "r1" "" "unknown" [] ∅ ∅ None]))].
Proof.
  exact (proj1 (listen_delivers_state
    (run [UserChanged (Some carol); Listen 1; RoomAdded "r1" lobby] init) 2
    (run_reachable _))).
Defined.

(** X18: after the function returned by [listen] has run there is no
    observer: whatever changes are made and announced in a tick, nobody is
    called, and the pending update is cleared all the same. *)
Theorem unlisten_silences (w : World) (ms : list Mutation) :
  reachable w →
  let w' := drain (synchronously ms (exec unlisten w)) in
  observed w' = observed w
  ∧ pendingUpdate w' = false
  ∧ microtasks w' = [].
Proof.
  intros Hreach. pose proof (reachable_coalescer_ok _ w Hreach) as Hok.
  assert (coalescer_ok (exec unlisten w)) as Hok0 by exact Hok.
  destruct (synchronously_exec ms _ Hok0) as (Hok1 & _ & _ & _ & Hl & Ho).
  simpl in *. unfold coalescer_ok in Hok1.
  set (w1 := synchronously ms (exec unlisten w)) in *.
  unfold drain, run_microtask.
  destruct (pendingUpdate w1) eqn:Hp; rewrite Hok1; simpl.
  - rewrite Hok1. simpl. rewrite Hl. simpl. by rewrite Ho.
  - by rewrite Ho, Hp, Hok1.
Qed.

Lemma unlisten_silences_witness :
  let w := run [Listen 1; Microtask] init in
  observed (drain (synchronously [(AppState.set_nickname "a", id)]
                                 (exec unlisten w)))
  = observed w.
Proof.
  exact (proj1 (unlisten_silences (run [Listen 1; Microtask] init)
    [(AppState.set_nickname "a", id)] (run_reachable _))).
Defined.

(** ** [selectRoom] *)

(** X19: [selectRoom] is idempotent: selecting the same room again changes
    nothing, also when the first call threw. *)
Theorem selectRoom_idempotent (w : World) (x : option ref) :
  exec (selectRoom x) (exec (selectRoom x) w) = exec (selectRoom x) w.
Proof.
  destruct x as [r|]; [|done].
  pose proof (selectRoom_selected r w) as Hsel.
  set (w1 := exec (selectRoom (Some r)) w) in *.
  unfold selectRoom at 1. js_unfold. simpl.
  by rewrite decide_True.
Qed.



(** ** The registry, continued *)

Lemma rooms_child_added_normal (rid : string) (info : RoomData.t) (w : World) :
  handle (RoomAdded rid info) w = exec (rooms_child_added rid info) w.
Proof.
  simpl. unfold toplevel, exec, rooms_child_added, findRoom, newRoom.
  js_unfold. simpl.
  destruct (findRoom_in _ _ _); simpl; by rewrite updateListeners_exec.
Qed.

Lemma rooms_child_removed_normal (rid : string) (w : World) :
  handle (RoomRemoved rid) w = exec (rooms_child_removed rid) w.
Proof.
  simpl. unfold toplevel, exec, rooms_child_removed, findRoom.
  js_unfold. simpl.
  destruct (findRoom_in _ _ _) as [room|]; simpl; [|done].
  destruct (decide _); simpl;
    (destruct (indexOf _ _ _); simpl; [done|by rewrite updateListeners_exec]).
Qed.

Lemma findRoom_in_found (w : World) (rid : string) (rs : list ref) :
  Forall (λ r, r < length (heap w)) rs →
  rid ∈ rid_of w <$> rs →
  ∃ r x, findRoom_in (heap w) rid rs = Some r
         ∧ r ∈ rs ∧ heap w !! r = Some x ∧ Room.rid x = rid.
Proof.
  intros Hv Hin.
  destruct (findRoom_in (heap w) rid rs) as [r|] eqn:Hfind.
  - destruct (findRoom_in_rid _ _ _ _ Hfind) as (x & Hx & Hrid).
    exists r, x. split; [done|]. split; [|done].
    by apply findRoom_in_elem in Hfind.
  - by destruct (findRoom_in_None_id w rid rs Hfind Hv).
Qed.

Lemma NoDup_delete_absent {A} (l : list A) (i : nat) (x : A) :
  NoDup l → l !! i = Some x → x ∉ delete i l.
Proof.
  intros Hnd Hi [j Hj]%list_elem_of_lookup.
  destruct (decide (j < i)).
  - rewrite list_lookup_delete_lt in Hj by done.
    pose proof (NoDup_lookup l i j x Hnd Hi Hj). lia.
  - rewrite list_lookup_delete_ge in Hj by lia.
    pose proof (NoDup_lookup l i (S j) x Hnd Hi Hj). lia.
Qed.

(** X21: after a ['child_added'] for an id, [findRoom] finds a room of the
    registry with that id, in every reachable world; when the id was new,
    the room is a fresh object at the end of [rooms], named as delivered,
    with unknown membership and no messages. *)
Theorem findRoom_after_added (w : World) (rid : string) (info : RoomData.t) :
  reachable w →
  let w' := handle (RoomAdded rid info) w in
  (∃ r x, findRoom_in (heap w') rid (AppState.rooms (state w')) = Some r
          ∧ r ∈ AppState.rooms (state w')
          ∧ heap w' !! r = Some x ∧ Room.rid x = rid)
  ∧ (findRoom_in (heap w) rid (AppState.rooms (state w)) = None →
     AppState.rooms (state w') = AppState.rooms (state w) ++ [length (heap w)]
     ∧ heap w' = heap w ++ [Room.mk (RoomData.name info) rid "" "unknown"
                                    [] ∅ ∅ None]).
Proof.
  intros Hreach. pose proof (reachable_registry_ok _ w Hreach) as Hok.
  cbv zeta. rewrite rooms_child_added_normal.
  destruct (rooms_child_added_ok rid info w Hok) as ([Hv _] & Hin & _).
  split; [by apply findRoom_in_found|].
  intros Hnone. unfold rooms_child_added, findRoom, newRoom. js_unfold. simpl.
  rewrite Hnone. simpl. rewrite updateListeners_exec. simpl.
  match goal with |- context [notified ?x] =>
    destruct (notified_same x) as (-> & -> & _) end.
  done.
Qed.

Lemma findRoom_after_added_witness :
  let w' := handle (RoomAdded "r1" lobby) init in
  findRoom_in (heap w') "r1" (AppState.rooms (state w')) = Some 0
  ∧ heap w' = [Room.mk "lobby" "r1" "" "unknown" [] ∅ ∅ None].
Proof.
  destruct (findRoom_after_added init "r1" lobby (reach_init _)) as [_ H].
  split; [reflexivity|]. exact (proj2 (H eq_refl)).
Defined.

(** X22: after a ['child_removed'] for an id, [findRoom] finds no room with
    that id, in every reachable world. *)
Theorem findRoom_after_removed (w : World) (rid : string) :
  reachable w →
  let w' := handle (RoomRemoved rid) w in
  findRoom_in (heap w') rid (AppState.rooms (state w')) = None.
Proof.
  intros Hreach. pose proof (reachable_registry_ok _ w Hreach) as [Hv Hnd].
  cbv zeta. rewrite rooms_child_removed_normal.
  pose proof (rooms_child_removed_exec rid w) as H. simpl in H.
  destruct (findRoom_in (heap w) rid _) as [room|] eqn:Hfind;
    [|by rewrite H].
  destruct H as (Hh & _ & i & Hi & Hr). rewrite Hh, Hr.
  destruct (findRoom_in (heap w) rid (delete i _)) as [r'|] eqn:Hfind';
    [|done].
  apply findRoom_in_Some_id in Hfind'. rewrite list_fmap_delete in Hfind'.
  destruct (findRoom_in_rid _ _ _ _ Hfind) as (x & Hx & Hrid).
  exfalso. eapply (NoDup_delete_absent (room_ids w) i rid); [done| |done].
  unfold room_ids. rewrite list_lookup_fmap, Hi. simpl.
  by rewrite (rid_of_lookup w room x Hx), Hrid.
Qed.

Lemma findRoom_after_removed_witness :
  let w := run carol_in_lobby init in
  findRoom_in (heap w) "r1" (AppState.rooms (state w)) = Some 0
  ∧ let w' := handle (RoomRemoved "r1") w in
    findRoom_in (heap w') "r1" (AppState.rooms (state w')) = None.
Proof.
  split; [reflexivity|].
  exact (findRoom_after_removed (run carol_in_lobby init) "r1"
           (run_reachable _)).
Defined.

(** X23: a ['child_added'] for an id the registry already has only
    schedules a notification: the room object keeps its name and everything
    else, whatever data came with the second delivery. *)
Theorem rooms_child_added_known
    (w : World) (rid : string) (info : RoomData.t) (r : ref) :
  findRoom_in (heap w) rid (AppState.rooms (state w)) = Some r →
  handle (RoomAdded rid info) w = notified w.
Proof.
  intros Hfind. rewrite rooms_child_added_normal.
  unfold rooms_child_added, findRoom. js_unfold. simpl. rewrite Hfind. simpl.
  by rewrite updateListeners_exec.
Qed.

Lemma rooms_child_added_known_witness :
  let w := run carol_in_lobby init in
  let w' := handle (RoomAdded "r1" (RoomData.mk true "renamed")) w in
  (Room.name <$> heap w') = ["lobby"] ∧ pendingUpdate w' = true.
Proof.
  pose proof (rooms_child_added_known (run carol_in_lobby init) "r1"
    (RoomData.mk true "renamed") 0 eq_refl) as H.
  cbv zeta. rewrite H. split; reflexivity.
Defined.

(** ** [sendMessage], signed in *)

(** X24: with an identity, [sendMessage] makes one call: a push under the
    room's message path of the text with the account id as author, with
    nothing attached.  The room's own log is not touched (the message shows
    up when the store delivers it) and no notification is scheduled. *)
Theorem sendMessage_signed_in
    (w : World) (r : ref) (room : Room.t) (u message : string) :
  heap w !! r = Some room →
  uid w = Some u →
  truthy u = true →
  isValidPathString (Some (Room.rid room)) = true →
  sendMessage r message w
  = (Normal (),
     set_requests
       (λ rs, rs ++ [mkRequest (CPush ["messages"; Room.rid room]
                                      (VMessage (Some u) message))
                               HNone false]) w).
Proof.
  intros Hr Hu Ht Hrid.
  unfold sendMessage, ensureSignedIn, readRoom, getMessagesRef, request.
  js_unfold. rewrite Hu. simpl. rewrite Ht, Hr. simpl.
  rewrite (child_valid _ _ _ Hrid). simpl. by rewrite Hu.
Qed.

Lemma sendMessage_signed_in_witness :
  let w := run carol_in_lobby init in
  let w' := exec (sendMessage 0 "hi") w in
  (call <$> requests w') !! 1
  = Some (CPush ["messages"; "r1"] (VMessage (Some "u1") "hi"))
  ∧ log 0 w' = [].
Proof.
  pose proof (sendMessage_signed_in (run carol_in_lobby init) 0
    (Room.mk "lobby" "r1" "" "unknown" [] ∅ ∅ (Some ["messages"; "r1"]))
    "u1" "hi" eq_refl eq_refl eq_refl eq_refl) as H.
  unfold exec. rewrite H. split; reflexivity.
Defined.

(** ** What the events leave alone *)

(** X25: in every reachable world at most one notifying callback is queued,
    and [pendingUpdate] is set exactly when one is. *)
Theorem one_notification_queued (w : World) :
  reachable w →
  length (microtasks w) ≤ 1
  ∧ (pendingUpdate w = true ↔ microtasks w = [NotifyTask]).
Proof.
  intros Hreach. pose proof (reachable_coalescer_ok _ w Hreach) as Hok.
  unfold coalescer_ok in Hok. rewrite Hok.
  destruct (pendingUpdate w); simpl; split; try lia; split; done.
Qed.

Lemma one_notification_queued_witness :
  let w := run [SetNickname "a"; SetNickname "b"; WindowError "e"] init in
  microtasks w = [NotifyTask] ∧ pendingUpdate w = true.
Proof.
  destruct (one_notification_queued
    (run [SetNickname "a"; SetNickname "b"; WindowError "e"] init)
    (run_reachable _)) as [_ H].
  split; [reflexivity|]. apply H. reflexivity.
Defined.

(** X26: the registry changes by the store's two child events only: every
    other event, the methods called by the UI among them, leaves [rooms]
    and the ids of all room objects as they are. *)
Theorem registry_changed_by_child_events_only (w : World) (ev : Event) :
  registry_event ev = false →
  AppState.rooms (state (handle ev w)) = AppState.rooms (state w)
  ∧ Room.rid <$> heap (handle ev w) = Room.rid <$> heap w.
Proof. intros Hev. exact (handle_registry_kept ev w Hev). Qed.

Lemma registry_changed_by_child_events_only_witness :
  let w := run carol_in_lobby init in
  AppState.rooms (state (handle (DeleteRoom 0) w)) = [0].
Proof.
  exact (proj1 (registry_changed_by_child_events_only
    (run carol_in_lobby init) (DeleteRoom 0) eq_refl)).
Defined.

Lemma handle_frame (ev : Event) (w : World) :
  registry_event ev = false → selection_event ev = false →
  frame w (handle ev w).
Proof.
  assert (∀ m w, preserves frame m → frame w (toplevel m w)) as Hframe.
  { intros m w' Hm.
    apply preserves_toplevel; [tc_solve | apply frame_set_unhandled | done]. }
  intros Hreg Hsel.
  destruct ev; try discriminate Hreg; try discriminate Hsel; simpl;
    repeat match goal with
           | |- frame _ (if ?b then _ else _) => destruct b
           end;
    try apply reflexivity.
  - apply Hframe, frame_userChanged.
  - apply Hframe. frame_tac.
  - apply Hframe, frame_ensureMessage.
  - apply frame_run_microtask.
  - apply Hframe. frame_tac.
  - apply Hframe, frame_listen.
  - apply Hframe, frame_unlisten.
  - apply Hframe, frame_createRoom.
  - apply Hframe, frame_deleteRoom.
  - apply Hframe, frame_setNickname.
  - apply Hframe, frame_sendMessage.
Qed.

(** X27: the selection changes only when the UI selects, when a room is
    removed, or when the store answers a call (the last step of
    [createRoom]): every other event leaves [currentRoom] as it is, the
    arrival of a room and [deleteRoom] among them. *)
Theorem selection_changed_by_few_events (w : World) (ev : Event) :
  selection_event ev = false →
  AppState.currentRoom (state (handle ev w))
  = AppState.currentRoom (state w).
Proof.
  intros Hsel. destruct (registry_event ev) eqn:Hreg.
  - destruct ev; try discriminate Hreg; try discriminate Hsel.
    rewrite rooms_child_added_normal.
    pose proof (rooms_child_added_exec rid info w) as H. simpl in H.
    destruct (findRoom_in _ _ _); [apply H|]. apply H.
  - apply (handle_frame ev w Hreg Hsel).
Qed.

Lemma selection_changed_by_few_events_witness :
  let w := run carol_in_lobby init in
  AppState.currentRoom (state (handle (DeleteRoom 0) w)) = Some 0
  ∧ AppState.currentRoom (state (handle (RoomAdded "r2" lobby) w)) = Some 0.
Proof.
  split.
  - exact (selection_changed_by_few_events (run carol_in_lobby init)
             (DeleteRoom 0) eq_refl).
  - exact (selection_changed_by_few_events (run carol_in_lobby init)
             (RoomAdded "r2" lobby) eq_refl).
Defined.

(** ** A message without an author *)


